(** * tsp.c: Monte Carlo search for the Traveling Salesman Problem

    A shallow embedding of [src/tsp.c] and the properties of its search
    loop.

    Numbers.  The program stores coordinates, distances and tour
    lengths as C [float] (IEEE 754 binary32), evaluates [pow] and [sqrt]
    in [double] (binary64) and counts trials with a [long double].  The
    three formats are instances of the Standard Library's [SpecFloat]
    model, which is executable, so every definition below can be
    evaluated on concrete inputs.  The model is that of gcc on x86-64
    (System V ABI): [float] expressions are evaluated in [float]
    ([FLT_EVAL_METHOD] is 0), [long double] is the 80-bit x87 extended
    format with a 64-bit significand, rounding is to nearest even, and
    [pow (x, 2)] and [sqrt] of libm are correctly rounded.

    Memory.  [malloc] always succeeds; the [float] matrices are values
    whose cells are indeterminate until written; the [int] arrays of the
    tours live in a heap of blocks.  City indices and counts are natural
    numbers: [int] arithmetic on them does not overflow (a data file has
    fewer than [2^31] lines).  A read or write that C leaves undefined
    makes the embedded function return [None].

    Output.  What [print_path] and [print_repo] write to stdout is not
    modelled; the messages on stderr and the arguments of [print_repo]
    are part of the outcome of [main]. *)

From Stdlib Require Import ZArith Lia Bool Ascii String.
From Stdlib Require Import SpecFloat.
From stdpp Require Import base option list gmap.

(** ** Floating-point formats *)

(** C [float]: binary32, 24-bit significand. *)
Abbreviation f32 := spec_float.

Definition fadd : f32 -> f32 -> f32 := SFadd 24 128.
Definition fsub : f32 -> f32 -> f32 := SFsub 24 128.
Definition flt : f32 -> f32 -> bool := SFltb.
Definition fle : f32 -> f32 -> bool := SFleb.
Definition feq : f32 -> f32 -> bool := SFeqb.

(** The literal [0] converted to [float]. *)
Definition fzero : f32 := S754_zero false.

(** [FLT_MAX], the initial value of [min_len]. *)
Definition FLT_MAX : f32 := SFmax_float 24 128.

(** C [double]: binary64, 53-bit significand. *)
Definition dadd : spec_float -> spec_float -> spec_float := SFadd 53 1024.
Definition dmul : spec_float -> spec_float -> spec_float := SFmul 53 1024.
Definition dsqrt : spec_float -> spec_float := SFsqrt 53 1024.

(** Conversion of a value to the format with [prec] significand bits:
    exact when the value fits (float to double), rounded to nearest even
    otherwise (double to float). *)
Definition convert (prec emax : Z) (x : spec_float) : spec_float :=
  match x with
  | S754_finite s m e => binary_round prec emax s m e
  | _ => x
  end.

Definition double_of_float : f32 -> spec_float := convert 53 1024.
Definition float_of_double : spec_float -> f32 := convert 24 128.

(** [pow (d, 2)] of libm: the correctly rounded square. *)
Definition pow2 (d : spec_float) : spec_float := dmul d d.

(** Classification used by the statements. *)
Definition is_finite (x : spec_float) : bool :=
  match x with
  | S754_zero _ | S754_finite _ _ _ => true
  | _ => false
  end.

Definition is_nan (x : spec_float) : bool :=
  match x with S754_nan => true | _ => false end.

(** [nonneg x]: [x] is not a NaN and its sign bit is clear, that is
    [x] is [+0], a positive finite number or [+infinity]. *)
Definition nonneg (x : spec_float) : bool :=
  match x with
  | S754_zero s | S754_infinity s | S754_finite s _ _ => negb s
  | S754_nan => false
  end.

(** ** Counted loops

    [for (i = 0; i < n; i++) body] over a state, in the option monad:
    [None] is undefined behaviour (a read or write out of bounds, or a
    read of an indeterminate cell). *)
Fixpoint for_from {S : Type} (i count : nat)
    (body : nat -> S -> option S) (s : S) : option S :=
  match count with
  | O => Some s
  | Datatypes.S c => s' ← body i s; for_from (Datatypes.S i) c body s'
  end.

Definition for_loop {S : Type} (n : nat) (body : nat -> S -> option S) (s : S)
  : option S := for_from 0 n body s.

(** ** Matrices of floats

    [float **]: rows allocated by [malloc], whose cells are
    indeterminate ([None]) until written. *)
Abbreviation matrix := (list (list (option spec_float))).

Definition malloc_matrix (nrows ncols : nat) : matrix :=
  replicate nrows (replicate ncols None).

Definition mread (D : matrix) (i j : nat) : option f32 :=
  row ← D !! i; c ← row !! j; c.

Definition mwrite (D : matrix) (i j : nat) (v : f32) : option matrix :=
  row ← D !! i;
  if decide (j < length row) then Some (<[i := <[j := Some v]> row]> D)
  else None.

(** ** distance_matrix *)

(** The right-hand side of the assignment in the inner loop:
    [sqrt (pow (a[0] - b[0], 2) + pow (a[1] - b[1], 2))], the
    subtractions in [float], the rest in [double], the result stored in
    a [float]. *)
Definition distance (a b : f32 * f32) : f32 :=
  float_of_double
    (dsqrt (dadd (pow2 (double_of_float (fsub a.1 b.1)))
                 (pow2 (double_of_float (fsub a.2 b.2))))).

Definition distance_matrix (coord : list (f32 * f32)) (num_city : nat)
  : option matrix :=
  let nrows := num_city in
  let ncols := num_city in
  for_loop num_city (fun i D =>
    for_loop num_city (fun j D =>
      a ← coord !! i; b ← coord !! j; mwrite D i j (distance a b)) D)
    (malloc_matrix nrows ncols).

(** ** measure_path *)

Definition measure_path (distance : matrix) (num_city : nat) (path : list nat)
  : option f32 :=
  for_loop num_city (fun i l =>
    a ← path !! i; b ← path !! (i + 1); d ← mread distance a b;
    Some (fadd l d)) fzero.

(** ** The long double trial counter *)

Definition ldadd : spec_float -> spec_float -> spec_float := SFadd 64 16384.
Definition ldlt : spec_float -> spec_float -> bool := SFltb.

(** An integer converted to [long double], rounded to nearest even
    (overflowing to infinity): the conversion of the [int] constants of
    [main], and [strtold] on the decimal digits of an integer. *)
Definition ld_of_Z (z : Z) : spec_float := binary_normalize 64 16384 z 0 false.

Definition ld_zero : spec_float := ld_of_Z 0.
Definition ld_one : spec_float := ld_of_Z 1.

(** ** Helpers that are not part of tsp.c

    [tsp.c] includes [utils.h] and [print.h]; their functions are code of
    the repository whose source is not available, and the C library
    supplies [strtold], [atoi], [fscanf] and [rand].  They are the
    methods of an interface:
    - [randperm num_city buf] fills [buf[0..num_city-1]] from the C
      library's pseudo-random generator, whose state is [rng];
    - [is_integer], [is_positive_number] and [is_coordinate] are the
      validators of the command line and of the lines of the data file;
    - [scan_coord] stands for the two [fscanf ("%f")] conversions that
      read one record of the data file. *)
Class Utils := {
  rng : Type;
  randperm : nat -> rng -> list nat * rng;
  is_integer : string -> bool;
  is_positive_number : string -> bool;
  is_coordinate : string -> bool;
  strtold : string -> spec_float;
  atoi : string -> Z;
  scan_coord : string -> f32 * f32;
}.

(** Modelled from the spec: [randperm] (utils.c) is missing; section 4.2
    says that the sampler produces a permutation of [0..N-1] (every city
    index exactly once). *)
Definition randperm_spec `{Utils} : Prop :=
  forall (n : nat) (r : rng), (randperm n r).1 ≡ₚ seq 0 n.

(** ** The heap of [int] arrays (tours) *)

Abbreviation loc := positive (only parsing).
Abbreviation heap := (gmap positive (list nat)).

Definition malloc_init (h : heap) (block : list nat) : loc * heap :=
  let p := fresh (dom h) in (p, <[p := block]> h).

(** [free p]: undefined on a pointer that is not a live block. *)
Definition free (h : heap) (p : loc) : option heap :=
  match h !! p with
  | Some _ => Some (delete p h)
  | None => None
  end.

(** Modelled from the spec: [array_copy] (utils.c) is missing; sections 3
    and 4.4 say that the retained best tour is copied out (a copy of the
    whole tour, independent of the trial's array) before the trial's tour
    is discarded.  [size] is the [num_cities] that [main] passes. *)
Definition array_copy (h : heap) (src : loc) (size : nat) : option (loc * heap) :=
  block ← h !! src; Some (malloc_init h block).

(** The outcome of a loop that may not terminate: [OutOfFuel] when the
    bound on the number of steps is reached, [Undefined] on undefined
    behaviour. *)
Inductive result (A : Type) :=
| Done (a : A)
| Undefined
| OutOfFuel.
Arguments Done {A} a.
Arguments Undefined {A}.
Arguments OutOfFuel {A}.

(** ** The command line and the file system *)

(** What [getopt (argc, argv, "n:m:f:h::")] returns, call after call,
    with [optarg]. *)
Inductive getopt_result :=
| Opt_n (optarg : string)
| Opt_m (optarg : string)
| Opt_f (optarg : string)
| Opt_h
| Opt_unknown
| Opt_other.

(** A file that [fopen] can open is the list of its lines. *)
Abbreviation file_system := (string -> option (list string)).

(** How [main] ends.  [Exit_failure msg]: [exit (EXIT_FAILURE)] after
    [msg] on stderr (without the program's name); [Report]: the
    arguments of [print_repo] before [return 0]. *)
Inductive outcome :=
| Exit_failure (msg : string)
| Exit_success
| Return_1 (msg : string)
| Abort
| Report (best : list nat) (length : f32) (trials : spec_float)
| Undefined_behaviour
| Out_of_fuel.

Definition msg_integer : string := "error: number of simulations must be an integer".
Definition msg_mode : string := "error: invalid mode, choose 0, 1 or 2".
Definition msg_no_file : string := "error: no such file or directory".
Definition msg_data_file : string := "error: incompatible data file".
Definition msg_option : string := "error: invalid option".
Definition msg_arguments : string := "error: too many or too few arguments".
Definition msg_overflow : string := "error: number of simulations must be less than %Lf ".
Definition msg_too_few : string := "error: too few parameters".

(** The locals of [main] that the option loop sets.  [num_iter],
    [mode], [num_cities] and [coord] are not initialised: they start
    with whatever the stack holds. *)
Record locals := Locals {
  nflag : bool;
  mflag : bool;
  fflag : bool;
  num_iter : spec_float;
  mode : Z;
  num_cities : Z;
  coord : list (f32 * f32);
}.

(** The variables of [main] that the search loop reads and writes;
    [min_path] is [None] while the pointer is indeterminate. *)
Record search {rng : Type} := Search {
  i : spec_float;
  min_len : f32;
  min_path : option loc;
  mem : heap;
  rand : rng;
}.
Arguments search : clear implicits.

Section Program.
Context `{Utils}.

(** ** create_path *)
Definition create_path (num_city : nat) (h : heap) (r : rng)
  : option (loc * heap * rng) :=
  let '(perm, r') := randperm num_city r in
  first ← perm !! 0;
  let '(p, h') := malloc_init h (perm ++ [first]) in
  Some (p, h', r').

(** ** read_file *)

(** The [getline] loop: [-1] at the first line that is not a
    coordinate, the number of lines otherwise. *)
Fixpoint count_rows (lines : list string) (nrows : Z) : Z :=
  match lines with
  | [] => nrows
  | line :: rest =>
      if is_coordinate line then count_rows rest (nrows + 1) else (-1)
  end.

(** The result, and the matrix stored in [*array] when the function
    gets as far as allocating it. *)
Definition read_file (fs : file_system) (file : string)
  : Z * option (list (f32 * f32)) :=
  match fs file with
  | None => (0, None)
  | Some lines =>
      let nrows := count_rows lines 0 in
      if decide (nrows = -1) then (-1, None)
      else (nrows, Some (scan_coord <$> lines))
  end%Z.

(** ** main: the options *)

(** One turn of the [while ((c = getopt (...)) != -1) switch (c)]
    loop: the locals after it, or the way [main] ends. *)
Definition handle_option (fs : file_system) (c : getopt_result) (v : locals)
  : outcome + locals :=
  match c with
  | Opt_n optarg =>
      if negb (is_integer optarg) then inl (Exit_failure msg_integer)
      else inr (Locals true (mflag v) (fflag v) (strtold optarg)
                       (mode v) (num_cities v) (coord v))
  | Opt_m optarg =>
      if negb (is_positive_number optarg) then inl (Exit_failure msg_mode)
      else
        let mode := atoi optarg in
        if (2 <? mode)%Z then inl (Exit_failure msg_mode)
        else inr (Locals (nflag v) true (fflag v) (num_iter v)
                         mode (num_cities v) (coord v))
  | Opt_f optarg =>
      let '(n, array) := read_file fs optarg in
      if decide (n = 0%Z) then inl (Exit_failure msg_no_file)
      else if decide (n = (-1)%Z) then inl (Exit_failure msg_data_file)
      else inr (Locals (nflag v) (mflag v) true (num_iter v) (mode v) n
                       (default (coord v) array))
  | Opt_h => inl Exit_success
  | Opt_unknown => inl (Return_1 msg_option)
  | Opt_other => inl Abort
  end.

Fixpoint parse_options (fs : file_system) (opts : list getopt_result)
    (v : locals) : outcome + locals :=
  match opts with
  | [] => inr v
  | c :: rest =>
      match handle_option fs c v with
      | inl o => inl o
      | inr v' => parse_options fs rest v'
      end
  end.

(** The guard [num_iter + 1 < num_iter]. *)
Definition overflow_guard (num_iter : spec_float) : bool :=
  ldlt (ldadd num_iter ld_one) num_iter.

(** The locals when the option loop starts: the three flags are
    initialised to 0, the rest is what the stack holds. *)
Definition initial_locals (stack : locals) : locals :=
  Locals false false false (num_iter stack) (mode stack) (num_cities stack)
         (coord stack).

(** [main] up to the call of [srand]: the option loop, then the three
    checks.  [extra] is [argc - optind], the number of arguments that
    are not options. *)
Definition configure (fs : file_system) (opts : list getopt_result)
    (extra : nat) (stack : locals) : outcome + locals :=
  match parse_options fs opts (initial_locals stack) with
  | inl o => inl o
  | inr v =>
      if decide (0 < extra) then inl (Exit_failure msg_arguments)
      else if overflow_guard (num_iter v) then inl (Exit_failure msg_overflow)
      else if negb (nflag v) || negb (mflag v) || negb (fflag v)
      then inl (Exit_failure msg_too_few)
      else inr v
  end.

(** ** main: the search loop *)

(** The loop body (the calls of [print_path], which only write to
    stdout, are left out). *)
Definition trial (distance : matrix) (num_cities : nat) (s : search rng)
  : option (search rng) :=
  '(path, h1, r1) ← create_path num_cities (mem s) (rand s);
  tour ← h1 !! path;
  len ← measure_path distance num_cities tour;
  '(min_len', min_path', h2) ←
    (if flt len (min_len s)
     then '(q, h) ← array_copy h1 path num_cities; Some (len, Some q, h)
     else Some (min_len s, min_path s, h1));
  h3 ← free h2 path;
  Some (Search rng (ldadd (i s) ld_one) min_len' min_path' h3 r1).

(** [for (i = 0; i < num_iter; i++) trial], from the state [s], with
    a bound on the number of tests of the loop condition. *)
Fixpoint search_loop (fuel : nat) (distance : matrix) (num_cities : nat)
    (num_iter : spec_float) (s : search rng) : result (search rng) :=
  match fuel with
  | O => OutOfFuel
  | S fuel' =>
      if ldlt (i s) num_iter then
        match trial distance num_cities s with
        | Some s' => search_loop fuel' distance num_cities num_iter s'
        | None => Undefined
        end
      else Done s
  end.

(** The state at the loop's entry: [i = 0], [min_len = FLT_MAX],
    [min_path] not initialised, no tour allocated. *)
Definition search_init (seed : rng) : search rng :=
  Search rng ld_zero FLT_MAX None ∅ seed.

(** [print_repo (coord, distance, min_path, ...)] and [free (min_path)]
    read the pointer [min_path] whatever the loop did. *)
Definition report (v : locals) (s : search rng) : outcome :=
  match min_path s with
  | None => Undefined_behaviour
  | Some q =>
      match mem s !! q with
      | Some best => Report best (min_len s) (num_iter v)
      | None => Undefined_behaviour
      end
  end.

(** [main] from [srand] on; [seed] is the generator's state after
    [srand (time (NULL))]. *)
Definition run (fuel : nat) (seed : rng) (v : locals) : outcome :=
  let n := Z.to_nat (num_cities v) in
  match distance_matrix (coord v) n with
  | None => Undefined_behaviour
  | Some distance =>
      match search_loop fuel distance n (num_iter v) (search_init seed) with
      | Done s => report v s
      | Undefined => Undefined_behaviour
      | OutOfFuel => Out_of_fuel
      end
  end.

Definition main (fuel : nat) (fs : file_system) (opts : list getopt_result)
    (extra : nat) (stack : locals) (seed : rng) : outcome :=
  match configure fs opts extra stack with
  | inl o => o
  | inr v => run fuel seed v
  end.

End Program.

(** ** Predicates of the statements *)

(** [has_sign s x]: [x] is a zero, a finite number or an infinity of
    sign [s] (so not a NaN). *)
Definition has_sign (s : bool) (x : spec_float) : Prop :=
  match x with
  | S754_zero s' | S754_infinity s' | S754_finite s' _ _ => s' = s
  | S754_nan => False
  end.

(** [shape n D]: [D] has [n] rows of [n] cells. *)
Definition shape (n : nat) (D : matrix) : Prop :=
  length D = n /\ Forall (fun row => length row = n) D.

(** Coordinates that are real numbers: neither infinite nor NaN. *)
Definition finite_coords (coord : list (f32 * f32)) : Prop :=
  Forall (fun c => is_finite c.1 = true /\ is_finite c.2 = true) coord.

(** The cell that [distance_matrix] computes for the cities [i], [j]. *)
Definition dcell (coord : list (f32 * f32)) (i j : nat) : option f32 :=
  a ← coord !! i; b ← coord !! j; Some (distance a b).

(** The state of the nested loops: the cells of the rows before [i],
    and those of row [i] before column [j], are written. *)
Definition written (coord : list (f32 * f32)) (i j : nat) (D : matrix) : Prop :=
  shape (length coord) D /\
  forall i' j', i' < length coord -> j' < length coord ->
    i' < i \/ (i' = i /\ j' < j) -> mread D i' j' = dcell coord i' j'.

(** A tour over [n] cities: [n + 1] city indices, all below [n]. *)
Definition valid_tour (n : nat) (path : list nat) : Prop :=
  length path = n + 1 /\ Forall (fun c => c < n) path.

(** A table whose [n] times [n] cells are all initialised. *)
Definition full_table (n : nat) (D : matrix) : Prop :=
  forall a b, a < n -> b < n -> is_Some (mread D a b).

(** No cell of the table is negative or a NaN. *)
Definition nonneg_table (D : matrix) : Prop :=
  forall a b d, mread D a b = Some d -> nonneg d = true.

Definition symmetric_table (D : matrix) : Prop :=
  forall a b, mread D a b = mread D b a.

(** [table[tour[i]][tour[i+1]]], the length of the [i]-th edge. *)
Definition edge (D : matrix) (path : list nat) (i : nat) : option f32 :=
  a ← path !! i; b ← path !! (i + 1); mread D a b.

(** The length of the edge between a pair of cities. *)
Definition edge_of (D : matrix) (ab : nat * nat) : option f32 :=
  mread D ab.1 ab.2.

(** The sum of the specification, as the C types give it: the edge
    lengths added from left to right in [float], starting from [0]. *)
Definition float_sum (ds : list f32) : f32 := foldl fadd fzero ds.

(** The consecutive pairs [(tour[i], tour[i+1])] of a tour. *)
Definition pairs (path : list nat) : list (nat * nat) := zip path (tail path).

(** The tour that visits the cycle [cyc] and returns to its first city. *)
Definition close (cyc : list nat) : list nat := cyc ++ take 1 cyc.

(** The loop body run [k] times in a row. *)
Fixpoint trials `{Utils} (k : nat) (distance : matrix) (num_cities : nat)
    (s : search rng) : option (search rng) :=
  match k with
  | O => Some s
  | S k' => s' ← trial distance num_cities s; trials k' distance num_cities s'
  end.

(** The state after a trial whose tour [tour], stored at [path], has
    the length [len]. *)
Definition after_trial `{Utils} (s : search rng) (path : loc) (tour : list nat)
    (len : f32) (r1 : rng) : search rng :=
  let h1 := <[path := tour]> (mem s) in
  if flt len (min_len s)
  then Search rng (ldadd (i s) ld_one) len (Some (fresh (dom h1)))
         (delete path (<[fresh (dom h1) := tour]> h1)) r1
  else Search rng (ldadd (i s) ld_one) (min_len s) (min_path s) (mem s) r1.

(** Once a data file is read, [num_cities] is the number of rows of
    [coord] and is at least 1. *)
Definition cities_ok (v : locals) : Prop :=
  fflag v = true ->
  (1 <= num_cities v)%Z /\ Z.of_nat (length (coord v)) = num_cities v.

(** The values that [i] takes: zero, or a positive number with an
    exponent of at most 1. *)
Definition counter_value (x : spec_float) : Prop :=
  x = S754_zero false \/ exists m e, x = S754_finite false m e /\ (e <= 1)%Z.

(** A bound that the counter never reaches: [+infinity], or a positive
    number with an exponent of 2 or more (at least [2^65]). *)
Definition beyond_counter (x : spec_float) : Prop :=
  x = S754_infinity false \/ exists m e, x = S754_finite false m e /\ (2 <= e)%Z.

(** ** Concrete inputs *)

(** An [int] constant converted to [float]. *)
Definition float_of_Z (z : Z) : f32 := binary_normalize 24 128 z 0 false.

Definition pt (x y : Z) : f32 * f32 := (float_of_Z x, float_of_Z y).

(** The unit square of the specification's scenario. *)
Definition unit_square : list (f32 * f32) := [pt 0 0; pt 1 0; pt 1 1; pt 0 1].

(** Two cities [2^127] apart. *)
Definition far_apart : list (f32 * f32) := [pt 0 0; pt (2 ^ 127) 0].

(** Four cities on a line, at 0, 16777216, 16777218 and 3. *)
Definition line4 : list (f32 * f32) :=
  [pt 0 0; pt (2 ^ 24) 0; pt (2 ^ 24 + 2) 0; pt 3 0].

(** An implementation of the helpers, to run the program on concrete
    inputs: the generator's state is a counter, [randperm] rotates
    [0..n-1] by it, an integer is a non-empty string of decimal digits,
    which [strtold] and [atoi] convert, and a coordinate record is two
    integers separated by a space. *)
Definition digit_of (c : Ascii.ascii) : option Z :=
  let n := Z.of_nat (Ascii.nat_of_ascii c) in
  if ((48 <=? n) && (n <=? 57))%Z then Some (n - 48)%Z else None.

Fixpoint parse_digits (s : string) (acc : Z) : option Z :=
  match s with
  | EmptyString => Some acc
  | String c s' => d ← digit_of c; parse_digits s' (10 * acc + d)%Z
  end.

Definition is_digits (s : string) : bool :=
  match s with
  | EmptyString => false
  | _ => bool_decide (is_Some (parse_digits s 0))
  end.

Definition digits_value (s : string) : Z := default 0%Z (parse_digits s 0).

Fixpoint before_space (s : string) : string :=
  match s with
  | EmptyString => EmptyString
  | String c s' =>
      if Ascii.eqb c " "%char then EmptyString else String c (before_space s')
  end.

Fixpoint after_space (s : string) : option string :=
  match s with
  | EmptyString => None
  | String c s' => if Ascii.eqb c " "%char then Some s' else after_space s'
  end.

Definition is_pair (s : string) : bool :=
  match after_space s with
  | Some t => is_digits (before_space s) && is_digits t
  | None => false
  end.

Definition scan_pair (s : string) : f32 * f32 :=
  pt (digits_value (before_space s))
     (digits_value (default EmptyString (after_space s))).

Definition sample_utils : Utils := {|
  rng := nat;
  randperm n r := (rotate r (seq 0 n), S r);
  is_integer := is_digits;
  is_positive_number := is_digits;
  is_coordinate := is_pair;
  strtold s := ld_of_Z (digits_value s);
  atoi := digits_value;
  scan_coord := scan_pair;
|}.

(** A file system with a data file of four records (the unit square)
    and an empty file, and a stack whose uninitialised locals hold
    arbitrary values. *)
Definition sample_fs : file_system := fun name =>
  if String.eqb name "cities" then Some ["0 0"; "1 0"; "1 1"; "0 1"]%string
  else if String.eqb name "empty" then Some []
  else None.

Definition sample_stack : locals := Locals true true true S754_nan 7 (-3) [].

(** The decimal numeral of [10 ^ n]. *)
Fixpoint zeros (n : nat) : string :=
  match n with
  | O => EmptyString
  | S n' => String "0"%char (zeros n')
  end.

Definition power_of_ten (n : nat) : string := String "1"%char (zeros n).

(** ** The trace of the search *)

(** What one trial samples: the tour that [create_path] stores and the
    length that [measure_path] gives it (the first two statements of
    the loop body). *)
Definition sample `{Utils} (distance : matrix) (num_cities : nat)
    (s : search rng) : option (list nat * f32) :=
  '(path, h1, r1) ← create_path num_cities (mem s) (rand s);
  tour ← h1 !! path;
  len ← measure_path distance num_cities tour;
  Some (tour, len).

(** The tours and lengths that [k] turns of the loop sample, in order. *)
Fixpoint samples `{Utils} (k : nat) (distance : matrix) (num_cities : nat)
    (s : search rng) : option (list (list nat * f32)) :=
  match k with
  | O => Some []
  | S k' =>
      x ← sample distance num_cities s;
      s' ← trial distance num_cities s;
      xs ← samples k' distance num_cities s';
      Some (x :: xs)
  end.

(** The state [s] holds the best of the samples [xs]: no sample is
    strictly shorter than [min_len]; and either nothing is retained yet
    ([min_path] indeterminate, [min_len = FLT_MAX], no sample below
    [FLT_MAX]) or [min_path] is a live copy of a sampled tour whose
    length is [min_len], below [FLT_MAX]. *)
Definition incumbent_of `{Utils} (xs : list (list nat * f32))
    (s : search rng) : Prop :=
  (forall t l, (t, l) ∈ xs -> flt l (min_len s) = false) /\
  ((min_path s = None /\ min_len s = FLT_MAX /\
    forall t l, (t, l) ∈ xs -> flt l FLT_MAX = false) \/
   (exists q t, min_path s = Some q /\ mem s !! q = Some t /\
                (t, min_len s) ∈ xs /\ flt (min_len s) FLT_MAX = true)).

(** ** Options that the loop of [main] accepts *)

(** [option_ok fs c]: the case of the [switch] for [c] reaches its
    [break]: the argument of [-n] passes [is_integer]; that of [-m]
    passes [is_positive_number] and converts to at most 2; that of [-f]
    names a file that opens, has at least one line, and all of whose
    lines pass [is_coordinate]. *)
Definition option_ok `{Utils} (fs : file_system) (c : getopt_result) : Prop :=
  match c with
  | Opt_n optarg => is_integer optarg = true
  | Opt_m optarg => is_positive_number optarg = true /\ (atoi optarg <= 2)%Z
  | Opt_f optarg =>
      exists lines, fs optarg = Some lines /\ lines <> [] /\
                    forallb is_coordinate lines = true
  | Opt_h | Opt_unknown | Opt_other => False
  end.

(** The argument of the last [-n] (of the last [-m], of the last [-f])
    of the command line, if there is one. *)
Fixpoint last_n (opts : list getopt_result) : option string :=
  match opts with
  | [] => None
  | c :: rest =>
      match last_n rest, c with
      | Some a, _ => Some a
      | None, Opt_n a => Some a
      | None, _ => None
      end
  end.

Fixpoint last_m (opts : list getopt_result) : option string :=
  match opts with
  | [] => None
  | c :: rest =>
      match last_m rest, c with
      | Some a, _ => Some a
      | None, Opt_m a => Some a
      | None, _ => None
      end
  end.

Fixpoint last_f (opts : list getopt_result) : option string :=
  match opts with
  | [] => None
  | c :: rest =>
      match last_f rest, c with
      | Some a, _ => Some a
      | None, Opt_f a => Some a
      | None, _ => None
      end
  end.


(** * Properties *)

(** ** Signs and NaNs of the floating-point operations *)

Lemma nonneg_has_sign x : nonneg x = true <-> has_sign false x.
Proof. destruct x as [[]|[]| |[] ? ?]; simpl; intuition congruence. Qed.

Lemma iter_pos_invariant {A} (P : A -> Prop) (f : A -> A) :
  (forall x, P x -> P (f x)) -> forall p x, P x -> P (SpecFloat.iter_pos f p x).
Proof.
  intros Hf p. induction p as [p IH|p IH|]; simpl; intros x Hx; auto.
Qed.

Lemma shr_1_nonneg mrs : (0 <= shr_m mrs)%Z -> (0 <= shr_m (shr_1 mrs))%Z.
Proof.
  destruct mrs as [m r s]. simpl.
  destruct m as [|[p|p|]|[p|p|]]; simpl; lia.
Qed.

Lemma shr_fexp_nonneg prec emax m e l :
  (0 <= m)%Z -> (0 <= shr_m (shr_fexp prec emax m e l).1)%Z.
Proof.
  intros Hm. unfold shr_fexp, shr.
  assert (H0 : (0 <= shr_m (shr_record_of_loc m l))%Z)
    by (destruct l as [|[]]; exact Hm).
  destruct (_ - e)%Z; simpl; auto.
  apply (iter_pos_invariant (fun r => 0 <= shr_m r)%Z); auto using shr_1_nonneg.
Qed.

Lemma round_nearest_even_nonneg m l :
  (0 <= m)%Z -> (0 <= round_nearest_even m l)%Z.
Proof.
  intros Hm. destruct l as [|[]]; simpl; try lia.
  destruct (Z.even m); lia.
Qed.

Lemma binary_round_aux_sign prec emax s m e l :
  (0 <= m)%Z -> has_sign s (binary_round_aux prec emax s m e l).
Proof.
  intros Hm. unfold binary_round_aux.
  pose proof (shr_fexp_nonneg prec emax m e l Hm) as H1.
  destruct (shr_fexp prec emax m e l) as [mrs' e']. simpl in H1.
  pose proof (shr_fexp_nonneg prec emax
    (round_nearest_even (shr_m mrs') (loc_of_shr_record mrs')) e' loc_Exact
    (round_nearest_even_nonneg _ _ H1)) as H2.
  destruct (shr_fexp prec emax _ e' loc_Exact) as [mrs'' e'']. simpl in H2.
  destruct (shr_m mrs'') as [|p|p]; simpl; try lia; auto.
  destruct (e'' <=? emax - prec)%Z; reflexivity.
Qed.

Lemma binary_round_sign prec emax s m e :
  has_sign s (binary_round prec emax s m e).
Proof.
  unfold binary_round. destruct (shl_align _ _ _) as [mz ez].
  apply binary_round_aux_sign. lia.
Qed.

Lemma binary_normalize_not_nan prec emax z e :
  is_nan (binary_normalize prec emax z e false) = false.
Proof.
  destruct z as [|p|p]; simpl; auto.
  - pose proof (binary_round_sign prec emax false p e) as Hs.
    destruct (binary_round _ _ _ _ _); simpl in *; tauto.
  - pose proof (binary_round_sign prec emax true p e) as Hs.
    destruct (binary_round _ _ _ _ _); simpl in *; tauto.
Qed.

Lemma SFadd_nonneg prec emax x y :
  has_sign false x -> has_sign false y -> has_sign false (SFadd prec emax x y).
Proof.
  destruct x as [sx|sx| |sx mx ex], y as [sy|sy| |sy my ey];
    simpl; intros Hx Hy; subst; simpl; try tauto; try reflexivity.
  apply binary_round_sign.
Qed.

Lemma SFmul_square_nonneg prec emax x :
  is_nan x = false -> has_sign false (SFmul prec emax x x).
Proof.
  destruct x as [s|s| |s m e]; simpl; intros Hx; try discriminate;
    try (destruct s; reflexivity).
  replace (xorb s s) with false by (destruct s; reflexivity).
  apply binary_round_aux_sign. lia.
Qed.

Lemma SFsqrt_nonneg prec emax x :
  has_sign false x -> has_sign false (SFsqrt prec emax x).
Proof.
  destruct x as [s|s| |s m e]; simpl; intros Hx; subst; simpl; auto.
  destruct (SFsqrt_core_binary prec emax (Z.pos m) e) as [[mz ez] lz] eqn:Hc.
  apply binary_round_aux_sign.
  unfold SFsqrt_core_binary in Hc.
  match type of Hc with
  | context [Z.sqrtrem ?a] =>
      pose proof (Z.sqrtrem_sqrt a) as Hs; destruct (Z.sqrtrem a) as [q r]
  end.
  simpl in Hs. inversion Hc; subst. apply Z.sqrt_nonneg.
Qed.

Lemma convert_sign prec emax s x :
  has_sign s x -> has_sign s (convert prec emax x).
Proof.
  destruct x as [s'|s'| |s' m e]; simpl; auto.
  intros ->. apply binary_round_sign.
Qed.

Lemma convert_not_nan prec emax x :
  is_nan x = false -> is_nan (convert prec emax x) = false.
Proof.
  destruct x as [s'|s'| |s' m e]; simpl; auto. intros _.
  pose proof (binary_round_sign prec emax s' m e) as Hs.
  destruct (binary_round _ _ _ _ _); simpl in *; tauto.
Qed.

Lemma fsub_finite_not_nan x y :
  is_finite x = true -> is_finite y = true -> is_nan (fsub x y) = false.
Proof.
  destruct x as [sx|sx| |sx mx ex], y as [sy|sy| |sy my ey];
    simpl; try discriminate; intros _ _.
  - destruct sx, sy; reflexivity.
  - reflexivity.
  - reflexivity.
  - apply binary_normalize_not_nan.
Qed.

(** Distances between points with finite coordinates are never
    negative and never NaN. *)
Lemma distance_nonneg a b :
  is_finite a.1 = true -> is_finite a.2 = true ->
  is_finite b.1 = true -> is_finite b.2 = true ->
  nonneg (distance a b) = true.
Proof.
  intros Ha1 Ha2 Hb1 Hb2. apply nonneg_has_sign. unfold distance.
  apply convert_sign, SFsqrt_nonneg, SFadd_nonneg;
    apply SFmul_square_nonneg, convert_not_nan, fsub_finite_not_nan; auto.
Qed.

(** ** Symmetry of the distance formula *)

Lemma binary_round_aux_abs prec emax s s' m e l :
  SFabs (binary_round_aux prec emax s m e l)
  = SFabs (binary_round_aux prec emax s' m e l).
Proof.
  unfold binary_round_aux.
  destruct (shr_fexp prec emax m e l) as [mrs' e'].
  destruct (shr_fexp prec emax _ e' loc_Exact) as [mrs'' e''].
  destruct (shr_m mrs''); simpl; auto.
  destruct (_ <=? _)%Z; reflexivity.
Qed.

Lemma binary_round_abs prec emax s s' m e :
  SFabs (binary_round prec emax s m e) = SFabs (binary_round prec emax s' m e).
Proof.
  unfold binary_round. destruct (shl_align _ _ _) as [mz ez].
  apply binary_round_aux_abs.
Qed.

Lemma binary_normalize_abs_opp prec emax z e :
  SFabs (binary_normalize prec emax (- z) e false)
  = SFabs (binary_normalize prec emax z e false).
Proof. destruct z; simpl; auto using binary_round_abs. Qed.

Lemma SFsub_abs_sym prec emax x y :
  SFabs (SFsub prec emax x y) = SFabs (SFsub prec emax y x).
Proof.
  destruct x as [sx|sx| |sx mx ex], y as [sy|sy| |sy my ey]; simpl; auto;
    try (destruct sx, sy; reflexivity).
  rewrite (Z.min_comm ey ex), <- binary_normalize_abs_opp.
  f_equal. f_equal. lia.
Qed.

Lemma convert_abs prec emax x y :
  SFabs x = SFabs y -> SFabs (convert prec emax x) = SFabs (convert prec emax y).
Proof.
  destruct x, y; simpl; intros Hxy; inversion Hxy; subst; auto.
  apply binary_round_abs.
Qed.

Lemma SFmul_square_abs prec emax x y :
  SFabs x = SFabs y -> SFmul prec emax x x = SFmul prec emax y y.
Proof.
  destruct x as [sx|sx| |sx mx ex], y as [sy|sy| |sy my ey]; simpl;
    intros Hxy; inversion Hxy; subst; auto;
    destruct sx, sy; reflexivity.
Qed.

Lemma distance_sym a b : distance a b = distance b a.
Proof.
  unfold distance, pow2, dmul, double_of_float, fsub.
  rewrite (SFmul_square_abs 53 1024 _ _
             (convert_abs 53 1024 _ _ (SFsub_abs_sym 24 128 a.1 b.1))).
  rewrite (SFmul_square_abs 53 1024 _ _
             (convert_abs 53 1024 _ _ (SFsub_abs_sym 24 128 a.2 b.2))).
  reflexivity.
Qed.



(** The comparison [==] of C holds between a number and itself unless
    it is a NaN. *)
Lemma SFcompare_refl x : is_nan x = false -> SFcompare x x = Some Eq.
Proof.
  destruct x as [s|s| |s m e]; simpl; try discriminate; intros _.
  - reflexivity.
  - destruct s; reflexivity.
  - rewrite Z.compare_refl, Pos.compare_cont_refl. destruct s; reflexivity.
Qed.



(** ** Counted loops: the invariant rule *)

Lemma for_from_invariant {S : Type} (Inv : nat -> S -> Prop)
    (body : nat -> S -> option S) (count i : nat) (s : S) :
  Inv i s ->
  (forall k t, i <= k < i + count -> Inv k t ->
     exists t', body k t = Some t' /\ Inv (Datatypes.S k) t') ->
  exists s', for_from i count body s = Some s' /\ Inv (i + count) s'.
Proof.
  revert i s. induction count as [|c IH]; intros i s Hs Hbody; simpl.
  - exists s. rewrite Nat.add_0_r. auto.
  - destruct (Hbody i s) as (t & Ht & Hinv); [lia|assumption|].
    rewrite Ht. simpl.
    destruct (IH (Datatypes.S i) t Hinv) as (s' & Hs' & Hinv').
    + intros k u Hk. apply Hbody. lia.
    + exists s'. split; [assumption|].
      replace (i + Datatypes.S c) with (Datatypes.S i + c) by lia. assumption.
Qed.

Lemma for_loop_invariant {S : Type} (Inv : nat -> S -> Prop)
    (body : nat -> S -> option S) (n : nat) (s : S) :
  Inv 0 s ->
  (forall k t, k < n -> Inv k t ->
     exists t', body k t = Some t' /\ Inv (Datatypes.S k) t') ->
  exists s', for_loop n body s = Some s' /\ Inv n s'.
Proof.
  intros H0 Hbody. apply (for_from_invariant Inv body n 0 s H0).
  intros k t Hk. apply Hbody. lia.
Qed.

(** ** distance_matrix *)

Lemma mwrite_spec n D i j v :
  shape n D -> i < n -> j < n ->
  exists D', mwrite D i j v = Some D' /\ shape n D' /\
    mread D' i j = Some v /\
    forall i' j', (i' <> i \/ j' <> j) -> mread D' i' j' = mread D i' j'.
Proof.
  intros [Hlen Hrows] Hi Hj.
  destruct (lookup_lt_is_Some_2 D i) as [row Hrow]; [lia|].
  assert (Hr : length row = n)
    by (eapply (proj1 (Forall_lookup _ _) Hrows); eauto).
  exists (<[i := <[j := Some v]> row]> D). repeat split.
  - unfold mwrite. rewrite Hrow. simpl.
    destruct (decide (j < length row)); [reflexivity|lia].
  - rewrite length_insert. assumption.
  - apply Forall_insert; [assumption|]. rewrite length_insert. assumption.
  - unfold mread. rewrite list_lookup_insert_eq by lia. simpl.
    rewrite list_lookup_insert_eq by lia. reflexivity.
  - intros i' j' Hne. unfold mread.
    destruct (decide (i' = i)) as [->|Hii].
    + rewrite list_lookup_insert_eq by lia. rewrite Hrow. simpl.
      rewrite list_lookup_insert_ne by (destruct Hne; congruence).
      reflexivity.
    + rewrite list_lookup_insert_ne by congruence. reflexivity.
Qed.

Lemma malloc_matrix_shape n : shape n (malloc_matrix n n).
Proof.
  split; unfold malloc_matrix.
  - apply length_replicate.
  - apply Forall_replicate, length_replicate.
Qed.

Lemma distance_matrix_written coord :
  exists D, distance_matrix coord (length coord) = Some D /\
            written coord (length coord) 0 D.
Proof.
  unfold distance_matrix.
  apply (for_loop_invariant (fun i D => written coord i 0 D)).
  - split; [apply malloc_matrix_shape|]. intros i' j' _ _ [?|[_ ?]]; lia.
  - intros i D Hi HD.
    destruct (for_loop_invariant (fun j D' => written coord i j D')
      (fun j D' => a ← coord !! i; b ← coord !! j; mwrite D' i j (distance a b))
      (length coord) D HD) as (D' & HD' & [Hshape Hcells]).
    + intros j E Hj [Hshape Hcells].
      destruct (lookup_lt_is_Some_2 coord i Hi) as [a Ha].
      destruct (lookup_lt_is_Some_2 coord j Hj) as [b Hb].
      rewrite Ha, Hb. simpl.
      destruct (mwrite_spec _ E i j (distance a b) Hshape Hi Hj)
        as (E' & HE' & Hshape' & Hij & Hother).
      exists E'. split; [assumption|]. split; [assumption|].
      intros i' j' Hi' Hj' Hdone.
      destruct (decide (i' = i /\ j' = j)) as [[-> ->]|Hne].
      * rewrite Hij. unfold dcell. rewrite Ha, Hb. reflexivity.
      * rewrite Hother by (destruct (decide (i' = i)); [right|left]; tauto).
        apply Hcells; lia.
    + exists D'. split; [assumption|]. split; [assumption|].
      intros i' j' Hi' Hj' Hdone. apply Hcells; lia.
Qed.




Lemma distance_matrix_full coord D :
  distance_matrix coord (length coord) = Some D -> full_table (length coord) D.
Proof.
  intros HD.
  destruct (distance_matrix_written coord) as (D' & HD' & Hshape & Hcells).
  assert (D' = D) by congruence. subst D'.
  intros a b Ha Hb. rewrite Hcells by auto. unfold dcell.
  destruct (lookup_lt_is_Some_2 coord a Ha) as [ca ->].
  destruct (lookup_lt_is_Some_2 coord b Hb) as [cb ->]. simpl. eauto.
Qed.

(** The matrix of a list of finite coordinates is a full table without
    negative cells or NaNs. *)
Lemma distance_matrix_table coord D :
  finite_coords coord -> distance_matrix coord (length coord) = Some D ->
  full_table (length coord) D /\ nonneg_table D /\ symmetric_table D.
Proof.
  intros Hfin HD.
  destruct (distance_matrix_written coord) as (D' & HD' & Hshape & Hcells).
  assert (D' = D) by congruence. subst D'.
  assert (Hout : forall a b, mread D a b = dcell coord a b).
  { intros a b.
    destruct (decide (a < length coord)) as [Ha|Ha];
      [destruct (decide (b < length coord)) as [Hb|Hb]|].
    - apply Hcells; auto.
    - unfold mread, dcell. destruct Hshape as [Hlen Hrows].
      destruct (D !! a) as [row|] eqn:Hrow; simpl.
      + assert (length row = length coord)
          by (eapply (proj1 (Forall_lookup _ _) Hrows); eauto).
        rewrite (lookup_ge_None_2 row b) by lia.
        rewrite (lookup_ge_None_2 coord b) by lia.
        destruct (coord !! a); reflexivity.
      + apply lookup_ge_None_1 in Hrow.
        rewrite (lookup_ge_None_2 coord a) by lia. reflexivity.
    - unfold mread, dcell. destruct Hshape as [Hlen Hrows].
      rewrite (lookup_ge_None_2 D a), (lookup_ge_None_2 coord a) by lia.
      reflexivity. }
  repeat split.
  - intros a b Ha Hb. rewrite Hout. unfold dcell.
    destruct (lookup_lt_is_Some_2 coord a Ha) as [ca ->].
    destruct (lookup_lt_is_Some_2 coord b Hb) as [cb ->]. simpl. eauto.
  - intros a b d. rewrite Hout. unfold dcell.
    destruct (coord !! a) as [ca|] eqn:Ha; [|discriminate].
    destruct (coord !! b) as [cb|] eqn:Hb; [|discriminate].
    simpl. intros [= <-].
    destruct (proj1 (Forall_lookup _ _) Hfin a ca Ha).
    destruct (proj1 (Forall_lookup _ _) Hfin b cb Hb).
    apply distance_nonneg; assumption.
  - intros a b. rewrite !Hout. unfold dcell.
    destruct (coord !! a), (coord !! b); simpl; try reflexivity.
    rewrite distance_sym. reflexivity.
Qed.

(** ** measure_path *)

Lemma measure_from D path count i l ds :
  Forall2 (fun k d => edge D path k = Some d) (seq i count) ds ->
  for_from i count
    (fun i l => a ← path !! i; b ← path !! (i + 1); d ← mread D a b;
                Some (fadd l d)) l
  = Some (foldl fadd l ds).
Proof.
  revert i l ds. induction count as [|c IH]; intros i l ds Hds; simpl in *.
  - inversion Hds; subst. reflexivity.
  - inversion Hds as [|k d ks ds' Hd Hrest]; subst.
    unfold edge in Hd.
    destruct (path !! i) as [a|]; [|discriminate].
    destruct (path !! (i + 1)) as [b|]; [|discriminate].
    simpl in *. rewrite Hd. simpl. apply IH, Hrest.
Qed.

Lemma edges_defined n D path :
  valid_tour n path -> full_table n D ->
  exists ds, Forall2 (fun k d => edge D path k = Some d) (seq 0 n) ds.
Proof.
  intros [Hlen Hidx] Hfull.
  assert (Hs : is_Some (mapM (edge D path) (seq 0 n))).
  { apply mapM_is_Some, Forall_forall. intros k Hk.
    apply elem_of_seq in Hk. simpl. unfold edge.
    destruct (lookup_lt_is_Some_2 path k) as [a Ha]; [lia|].
    destruct (lookup_lt_is_Some_2 path (k + 1)) as [b Hb]; [lia|].
    rewrite Ha, Hb. simpl.
    apply Hfull; eapply (proj1 (Forall_lookup _ _) Hidx); eauto. }
  destruct Hs as [ds Hds]. exists ds. apply mapM_Some, Hds.
Qed.

Lemma foldl_fadd_nonneg ds l :
  nonneg l = true -> Forall (fun d => nonneg d = true) ds ->
  nonneg (foldl fadd l ds) = true.
Proof.
  revert l. induction ds as [|d ds IH]; intros l Hl Hds; simpl; auto.
  inversion Hds; subst. apply IH; auto.
  apply nonneg_has_sign, SFadd_nonneg; apply nonneg_has_sign; assumption.
Qed.

Lemma edges_nonneg D path js ds :
  nonneg_table D ->
  Forall2 (fun k d => edge D path k = Some d) js ds ->
  Forall (fun d => nonneg d = true) ds.
Proof.
  intros Hnn Hds. induction Hds as [|k d ks ds' Hd _ IH]; constructor; auto.
  unfold edge in Hd.
  destruct (path !! k) as [a|]; [|discriminate].
  destruct (path !! (k + 1)) as [b|]; [|discriminate].
  simpl in Hd. eapply Hnn, Hd.
Qed.

(** C2, amended.  For a tour of [N + 1] indices below [N] and a table
    whose [N] times [N] cells are initialised, [measure_path] returns
    the sum of [table[tour[i]][tour[i+1]]] for [i] in [0..N-1], added
    from left to right in [float] (each addition rounded to binary32);
    it only reads its arguments; and when no cell of the table is
    negative or a NaN, neither is the result (which can be
    [+infinity]). *)
Theorem measure_path_correct (n : nat) (D : matrix) (path : list nat) :
  valid_tour n path -> full_table n D ->
  exists ds,
    Forall2 (fun i d => edge D path i = Some d) (seq 0 n) ds /\
    measure_path D n path = Some (float_sum ds) /\
    (nonneg_table D -> nonneg (float_sum ds) = true).
Proof.
  intros Hpath Hfull.
  destruct (edges_defined n D path Hpath Hfull) as [ds Hds].
  exists ds. split; [assumption|]. split.
  - apply measure_from, Hds.
  - intros Hnn. apply foldl_fadd_nonneg; [reflexivity|].
    eapply edges_nonneg; eauto.
Qed.

Lemma valid_tour_010 : valid_tour 2 [0; 1; 0].
Proof. split; [reflexivity|]. repeat constructor. Qed.

Lemma finite_far_apart : finite_coords far_apart.
Proof. repeat constructor. Qed.

Lemma measure_path_correct_witness :
  exists D, distance_matrix far_apart 2 = Some D /\
  exists ds,
    Forall2 (fun i d => edge D [0; 1; 0] i = Some d) (seq 0 2) ds /\
    measure_path D 2 [0; 1; 0] = Some (float_sum ds) /\
    (nonneg_table D -> nonneg (float_sum ds) = true).
Proof.
  destruct (distance_matrix far_apart 2) as [D|] eqn:HD; [|discriminate].
  exists D. split; [reflexivity|].
  apply (measure_path_correct 2 D [0; 1; 0] valid_tour_010).
  apply (distance_matrix_table far_apart D finite_far_apart HD).
Defined.

(** C2 as stated fails: between two cities [2^127] apart the tour
    [0, 1, 0] has a length that is not finite, although the table comes
    from [distance_matrix] and holds only finite, non-negative
    distances. *)
Lemma measure_path_not_finite :
  exists D r, distance_matrix far_apart 2 = Some D /\
    valid_tour 2 [0; 1; 0] /\ full_table 2 D /\ nonneg_table D /\
    (forall a b d, mread D a b = Some d -> is_finite d = true) /\
    measure_path D 2 [0; 1; 0] = Some r /\ is_finite r = false.
Proof.
  destruct (distance_matrix far_apart 2) as [D|] eqn:HD; [|discriminate].
  exists D, (S754_infinity false).
  destruct (distance_matrix_table far_apart D finite_far_apart HD)
    as (Hfull & Hnn & _).
  repeat split; auto using valid_tour_010.
  - repeat constructor.
  - vm_compute in HD. injection HD as <-.
    intros [|[|a]] [|[|b]] d; vm_compute; intros [= <-]; reflexivity.
  - vm_compute in HD. injection HD as <-. reflexivity.
Qed.

(** ** Edges of rotated and reversed tours *)

Lemma pairs_cons2 a b w : pairs (a :: b :: w) = (a, b) :: pairs (b :: w).
Proof. reflexivity. Qed.

Lemma pairs_app u x v : pairs (u ++ x :: v) = pairs (u ++ [x]) ++ pairs (x :: v).
Proof.
  induction u as [|a u IH]; [reflexivity|].
  destruct u as [|b u]; [reflexivity|].
  change (pairs (a :: b :: (u ++ x :: v))
          = pairs (a :: b :: (u ++ [x])) ++ pairs (x :: v)).
  rewrite !pairs_cons2. simpl. f_equal. exact IH.
Qed.

Lemma length_pairs path : length (pairs path) = length path - 1.
Proof.
  unfold pairs. rewrite length_zip_with.
  destruct path as [|a p]; [reflexivity|]. cbn [tail length]. lia.
Qed.

Lemma pairs_close_app l1 l2 :
  l1 <> [] -> l2 <> [] ->
  pairs (close (l1 ++ l2)) = pairs (l1 ++ take 1 l2) ++ pairs (l2 ++ take 1 l1).
Proof.
  destruct l1 as [|a l1], l2 as [|b l2]; try congruence. intros _ _.
  unfold close. simpl take.
  change ((a :: l1) ++ b :: l2) with ((a :: l1) ++ [b] ++ l2).
  rewrite <- !app_assoc. simpl ([b] ++ _).
  apply (pairs_app (a :: l1) b (l2 ++ [a])).
Qed.

Lemma pairs_close_rotate k cyc :
  pairs (close (rotate k cyc)) = rotate k (pairs (close cyc)).
Proof.
  destruct cyc as [|c cyc'].
  { unfold rotate, close, pairs. simpl. rewrite !drop_nil, !take_nil.
    reflexivity. }
  set (cyc := c :: cyc'). unfold rotate.
  assert (Hlen : length (pairs (close cyc)) = length cyc).
  { rewrite length_pairs. unfold close. rewrite length_app. simpl. lia. }
  rewrite Hlen.
  assert (Hm : k `mod` length cyc < length cyc)
    by (apply Nat.mod_upper_bound; discriminate).
  destruct (k `mod` length cyc) as [|m] eqn:Hk.
  - rewrite !drop_0, !take_0, !app_nil_r. reflexivity.
  - set (l1 := take (S m) cyc). set (l2 := drop (S m) cyc).
    assert (H1 : l1 <> []).
    { intros E. apply (f_equal length) in E. unfold l1 in E.
      rewrite length_take in E.
      change (@length nat []) with 0 in E. lia. }
    assert (H2 : l2 <> []).
    { intros E. apply (f_equal length) in E. unfold l2 in E.
      rewrite length_drop in E.
      change (@length nat []) with 0 in E. lia. }
    replace (pairs (close cyc)) with (pairs (close (l1 ++ l2)))
      by (unfold l1, l2; rewrite take_drop; reflexivity).
    rewrite !pairs_close_app by assumption.
    assert (Hl1 : length (pairs (l1 ++ take 1 l2)) = S m).
    { rewrite length_pairs, length_app. unfold l1, l2.
      rewrite !length_take, length_drop. lia. }
    rewrite drop_app_length', take_app_length' by (symmetry; assumption).
    reflexivity.
Qed.

Lemma pairs_reverse t : pairs (reverse t) = reverse (prod_swap <$> pairs t).
Proof.
  induction t as [|a t IH]; [reflexivity|].
  destruct t as [|b t]; [reflexivity|].
  rewrite pairs_cons2, fmap_cons.
  rewrite (reverse_cons (prod_swap <$> pairs (b :: t))), <- IH.
  rewrite (reverse_cons (b :: t) a), (reverse_cons t b), <- app_assoc.
  simpl ([b] ++ [a]).
  rewrite (pairs_app (reverse t) b [a]). reflexivity.
Qed.

Lemma edges_defined_pairs n D path :
  Forall (fun c => c < n) path -> full_table n D ->
  exists es, Forall2 (fun ab d => edge_of D ab = Some d) (pairs path) es.
Proof.
  intros Hidx Hfull.
  assert (Hs : is_Some (mapM (edge_of D) (pairs path))).
  { apply mapM_is_Some, Forall_forall. intros [a b] Hab. simpl.
    rewrite Forall_forall in Hidx. apply Hfull; apply Hidx.
    - eapply elem_of_zip_l, Hab.
    - apply elem_of_zip_r in Hab.
      destruct path; [inversion Hab|]. simpl in Hab. right. assumption. }
  destruct Hs as [es Hes]. exists es. apply mapM_Some, Hes.
Qed.

Lemma measure_pairs n D path es :
  length path = n + 1 ->
  Forall2 (fun ab d => edge_of D ab = Some d) (pairs path) es ->
  measure_path D n path = Some (float_sum es).
Proof.
  intros Hlen Hes. apply measure_from.
  apply Forall2_same_length_lookup in Hes as [Hl Hes].
  rewrite length_pairs in Hl.
  apply Forall2_same_length_lookup. split.
  - rewrite length_seq. lia.
  - intros i k d Hk Hd. apply lookup_seq in Hk as [-> Hi]. simpl.
    destruct (lookup_lt_is_Some_2 path i) as [a Ha]; [lia|].
    destruct (lookup_lt_is_Some_2 path (i + 1)) as [b Hb]; [lia|].
    unfold edge. rewrite Ha, Hb. simpl.
    apply (Hes i (a, b) d); [|assumption].
    unfold pairs. rewrite lookup_zip_with, lookup_tail, Ha. simpl.
    replace (S i) with (i + 1) by lia. rewrite Hb. reflexivity.
Qed.

Lemma length_close cyc : cyc <> [] -> length (close cyc) = length cyc + 1.
Proof.
  intros Hc. unfold close. rewrite length_app, length_take.
  destruct cyc; [congruence|]. simpl. lia.
Qed.

Lemma Forall_close (P : nat -> Prop) cyc : Forall P cyc -> Forall P (close cyc).
Proof.
  intros Hc. unfold close. apply Forall_app. split; [assumption|].
  apply Forall_take, Hc.
Qed.

(** C9, amended.  Starting the same cyclic order from another city, or
    (over a symmetric table) reversing the visiting order, makes
    [measure_path] add the same edge lengths in rotated, respectively
    reversed, order: the result is the left-to-right [float] sum of that
    reordered list.  (The two sums agree in exact arithmetic; in
    [float] they can differ by rounding.) *)
Theorem measure_path_rotate_reverse (n : nat) (D : matrix) (cyc : list nat) :
  length cyc = n -> Forall (fun c => c < n) cyc -> full_table n D ->
  exists es,
    length es = n /\
    Forall2 (fun ab d => edge_of D ab = Some d) (pairs (close cyc)) es /\
    measure_path D n (close cyc) = Some (float_sum es) /\
    (forall k, measure_path D n (close (rotate k cyc))
               = Some (float_sum (rotate k es))) /\
    (symmetric_table D ->
       measure_path D n (reverse (close cyc)) = Some (float_sum (reverse es))).
Proof.
  intros Hlen Hidx Hfull.
  destruct cyc as [|c cyc'].
  { subst n. exists []. repeat split; try constructor.
    intros k. unfold rotate. simpl. rewrite !drop_nil, !take_nil. reflexivity. }
  set (cyc := c :: cyc') in *.
  assert (Hne : cyc <> []) by discriminate.
  destruct (edges_defined_pairs n D (close cyc)) as [es Hes];
    auto using Forall_close.
  assert (Hcl : length (close cyc) = n + 1) by (rewrite length_close; auto).
  exists es. repeat split.
  - apply Forall2_length in Hes. rewrite length_pairs in Hes. lia.
  - assumption.
  - apply measure_pairs; assumption.
  - intros k. apply measure_pairs.
    + rewrite length_close, length_rotate; [lia|].
      intros E. apply (f_equal length) in E. rewrite length_rotate in E.
      subst n. discriminate.
    + rewrite pairs_close_rotate. apply Forall2_rotate, Hes.
  - intros Hsym. apply measure_pairs.
    + rewrite length_reverse. assumption.
    + rewrite pairs_reverse. apply Forall2_reverse, Forall2_fmap_l.
      eapply Forall2_impl; [exact Hes|].
      intros [a b] d Hd. unfold edge_of in *. simpl in *.
      rewrite <- Hsym. assumption.
Qed.

Lemma finite_line4 : finite_coords line4.
Proof. repeat constructor. Qed.

Lemma measure_path_rotate_reverse_witness :
  exists D, distance_matrix line4 4 = Some D /\
  exists es,
    length es = 4 /\
    Forall2 (fun ab d => edge_of D ab = Some d) (pairs (close [0; 1; 2; 3])) es /\
    measure_path D 4 (close [0; 1; 2; 3]) = Some (float_sum es) /\
    (forall k, measure_path D 4 (close (rotate k [0; 1; 2; 3]))
               = Some (float_sum (rotate k es))) /\
    (symmetric_table D ->
       measure_path D 4 (reverse (close [0; 1; 2; 3]))
       = Some (float_sum (reverse es))).
Proof.
  destruct (distance_matrix line4 4) as [D|] eqn:HD; [|discriminate].
  exists D. split; [reflexivity|].
  apply (measure_path_rotate_reverse 4 D [0; 1; 2; 3]).
  - reflexivity.
  - repeat constructor.
  - apply (distance_matrix_table line4 D finite_line4 HD).
Defined.

(** C9 as stated fails.  Over the four cities of [line4] the tour
    [0, 1, 2, 3, 0] measures 33554436; the same cycle started from city 2
    measures 33554432; and that tour [2, 3, 0, 1, 2] reversed measures
    33554436 again.  The table is the symmetric one that
    [distance_matrix] builds. *)
Lemma measure_path_rotation_differs :
  exists D, distance_matrix line4 4 = Some D /\
    symmetric_table D /\
    measure_path D 4 (close [0; 1; 2; 3]) = Some (float_of_Z 33554436) /\
    measure_path D 4 (close (rotate 2 [0; 1; 2; 3]))
      = Some (float_of_Z 33554432) /\
    measure_path D 4 (reverse (close (rotate 2 [0; 1; 2; 3])))
      = Some (float_of_Z 33554436) /\
    feq (float_of_Z 33554436) (float_of_Z 33554432) = false.
Proof.
  destruct (distance_matrix line4 4) as [D|] eqn:HD; [|discriminate].
  exists D.
  destruct (distance_matrix_table line4 D finite_line4 HD) as (_ & _ & Hsym).
  split; [reflexivity|]. split; [assumption|].
  vm_compute in HD. injection HD as <-.
  repeat split; vm_compute; reflexivity.
Qed.

(** ** Rounding to the 64-bit significand of long double *)

Lemma iter_pos_iter {A} (f : A -> A) p x : SpecFloat.iter_pos f p x = Pos.iter f x p.
Proof.
  revert x. induction p as [p IH|p IH|]; intros x; simpl; auto.
  - rewrite !IH, !Pos.iter_swap. reflexivity.
  - rewrite !IH. reflexivity.
Qed.

Lemma shr_iter_xO n q :
  Pos.iter shr_1 (Build_shr_record (Z.pos (Pos.iter xO q n)) false false) n
  = Build_shr_record (Z.pos q) false false.
Proof.
  revert q. induction n as [|n IH] using Pos.peano_ind; intros q.
  - reflexivity.
  - rewrite Pos.iter_succ_r, (Pos.iter_succ n _ xO). simpl shr_1. apply IH.
Qed.

Lemma digits2_iter_xO n q :
  digits2_pos (Pos.iter xO q n) = (digits2_pos q + n)%positive.
Proof.
  induction n as [|n IH] using Pos.peano_ind.
  - simpl. rewrite Pos.add_1_r. reflexivity.
  - rewrite Pos.iter_succ. simpl. rewrite IH, Pos.add_succ_r. reflexivity.
Qed.

Lemma Zpos_iter_xO n q : Z.pos (Pos.iter xO q n) = (Z.pos q * 2 ^ Z.pos n)%Z.
Proof.
  induction n as [|n IH] using Pos.peano_ind.
  - simpl. lia.
  - rewrite Pos.iter_succ, Pos2Z.inj_xO, IH, Pos2Z.inj_succ.
    rewrite Z.pow_succ_r by lia. lia.
Qed.

Lemma digits2_shiftl q n :
  Z.pos (digits2_pos (Pos.shiftl q n)) = (Z.pos (digits2_pos q) + Z.of_N n)%Z.
Proof.
  destruct n as [|n]; unfold Pos.shiftl; [lia|]. rewrite digits2_iter_xO. lia.
Qed.

Lemma Zpos_shiftl q n : Z.pos (Pos.shiftl q n) = (Z.pos q * 2 ^ Z.of_N n)%Z.
Proof.
  destruct n as [|n]; unfold Pos.shiftl; [simpl; lia|]. apply Zpos_iter_xO.
Qed.

Lemma fexp_ld e : (-16381 <= e)%Z -> fexp 64 16384 e = (e - 64)%Z.
Proof. unfold fexp, emin. lia. Qed.

Lemma shr_fexp_shift q n e :
  digits2_pos q = 64%positive -> (-16445 <= e + Z.of_N n)%Z ->
  shr_fexp 64 16384 (Z.pos (Pos.shiftl q n)) e loc_Exact
  = (Build_shr_record (Z.pos q) false false, (e + Z.of_N n)%Z).
Proof.
  intros Hq He. unfold shr_fexp, shr_record_of_loc, Zdigits2.
  rewrite digits2_shiftl, Hq, fexp_ld by lia.
  replace (64 + Z.of_N n + e - 64 - e)%Z with (Z.of_N n) by lia.
  destruct n as [|n]; simpl Z.of_N; unfold shr.
  - rewrite Z.add_0_r. reflexivity.
  - rewrite iter_pos_iter. unfold Pos.shiftl. rewrite shr_iter_xO. reflexivity.
Qed.

(** A significand of 64 bits followed by [n] zero bits is rounded
    without error. *)
Lemma round_aux_shift s q n e :
  digits2_pos q = 64%positive -> (-16445 <= e + Z.of_N n <= 16320)%Z ->
  binary_round_aux 64 16384 s (Z.pos (Pos.shiftl q n)) e loc_Exact
  = S754_finite s q (e + Z.of_N n).
Proof.
  intros Hq He. unfold binary_round_aux.
  rewrite shr_fexp_shift by (auto; lia).
  cbn [shr_m loc_of_shr_record round_nearest_even].
  pose proof (shr_fexp_shift q 0 (e + Z.of_N n) Hq) as H0.
  unfold Pos.shiftl in H0. rewrite H0 by (simpl; lia).
  cbn [shr_m]. simpl Z.of_N. rewrite Z.add_0_r.
  destruct (Z.leb_spec (e + Z.of_N n) (16384 - 64)); [reflexivity|lia].
Qed.

(** The canonical representation of a positive integer below [2^64]. *)
Lemma ld_of_pos p :
  (Z.pos (digits2_pos p) <= 64)%Z ->
  ld_of_Z (Z.pos p)
  = S754_finite false (Pos.shiftl p (Z.to_N (64 - Z.pos (digits2_pos p))))
                (Z.pos (digits2_pos p) - 64).
Proof.
  intros Hd. unfold ld_of_Z, binary_normalize, binary_round, shl_align.
  rewrite Z.add_0_r, fexp_ld by lia.
  pose proof (digits2_shiftl p (Z.to_N (64 - Z.pos (digits2_pos p)))) as Hq.
  destruct (Z.pos (digits2_pos p) - 64 - 0)%Z as [|δ|δ] eqn:Hδ; try lia.
  - replace (Z.to_N (64 - Z.pos (digits2_pos p))) with 0%N in * by lia.
    pose proof (round_aux_shift false p 0 0) as Hr.
    unfold Pos.shiftl in *. rewrite Hr by lia. f_equal. lia.
  - replace (Z.to_N (64 - Z.pos (digits2_pos p))) with (N.pos δ) in * by lia.
    pose proof (round_aux_shift false (Pos.iter xO p δ) 0
                  (Z.pos (digits2_pos p) - 64)) as Hr.
    unfold Pos.shiftl in *. rewrite Hr by lia. f_equal. lia.
Qed.

Lemma binary_round_shift q n e :
  digits2_pos q = 64%positive -> (-16445 <= e + Z.of_N n <= 16320)%Z ->
  binary_round 64 16384 false (Pos.shiftl q n) e
  = S754_finite false q (e + Z.of_N n).
Proof.
  intros Hq He. unfold binary_round, shl_align.
  rewrite digits2_shiftl, Hq, fexp_ld by lia.
  replace (64 + Z.of_N n + e - 64 - e)%Z with (Z.of_N n) by lia.
  destruct n as [|n]; simpl Z.of_N; cbv iota beta;
    apply round_aux_shift; auto.
Qed.

Lemma digits2_bounds p :
  (2 ^ (Z.pos (digits2_pos p) - 1) <= Z.pos p < 2 ^ Z.pos (digits2_pos p))%Z.
Proof.
  induction p as [p IH|p IH|]; cbn [digits2_pos]; [| |simpl; lia];
    rewrite Pos2Z.inj_succ;
    replace (Z.succ (Z.pos (digits2_pos p)) - 1)%Z
      with (Z.succ (Z.pos (digits2_pos p) - 1)) by lia;
    rewrite !Z.pow_succ_r by lia; lia.
Qed.

Lemma digits2_mono p q :
  (Z.pos p <= Z.pos q)%Z -> (Z.pos (digits2_pos p) <= Z.pos (digits2_pos q))%Z.
Proof.
  intros Hpq.
  destruct (Z.le_gt_cases (Z.pos (digits2_pos p)) (Z.pos (digits2_pos q)))
    as [|Hgt]; [assumption|exfalso].
  pose proof (digits2_bounds p) as [Hp _].
  pose proof (digits2_bounds q) as [_ Hq].
  assert (2 ^ Z.pos (digits2_pos q) <= 2 ^ (Z.pos (digits2_pos p) - 1))%Z
    by (apply Z.pow_le_mono_r; lia).
  lia.
Qed.

Lemma digits2_below p :
  (Z.pos p < 2 ^ 64)%Z -> (Z.pos (digits2_pos p) <= 64)%Z.
Proof.
  intros Hp.
  destruct (Z.le_gt_cases (Z.pos (digits2_pos p)) 64) as [|Hgt];
    [assumption|exfalso].
  pose proof (digits2_bounds p) as [Hlo _].
  assert (2 ^ 64 <= 2 ^ (Z.pos (digits2_pos p) - 1))%Z
    by (apply Z.pow_le_mono_r; lia).
  lia.
Qed.

Lemma ld_one_eq : ld_one = S754_finite false 9223372036854775808 (-63).
Proof. reflexivity. Qed.

(** [i++] is exact below [2^64]. *)
Lemma ld_succ_pos p :
  (Z.pos p + 1 < 2 ^ 64)%Z ->
  ldadd (ld_of_Z (Z.pos p)) ld_one = ld_of_Z (Z.pos p + 1).
Proof.
  intros Hp.
  assert (Hd' : (Z.pos (digits2_pos (p + 1)) <= 64)%Z)
    by (apply digits2_below; lia).
  assert (Hd : (Z.pos (digits2_pos p) <= Z.pos (digits2_pos (p + 1)))%Z)
    by (apply digits2_mono; lia).
  assert (Hd2 : (2 <= Z.pos (digits2_pos (p + 1)))%Z).
  { destruct (Z.le_gt_cases 2 (Z.pos (digits2_pos (p + 1)))); [assumption|].
    pose proof (digits2_bounds (p + 1)) as [_ Hhi].
    replace (Z.pos (digits2_pos (p + 1))) with 1%Z in Hhi by lia.
    simpl in Hhi. lia. }
  change (Z.pos p + 1)%Z with (Z.pos (p + 1)).
  rewrite (ld_of_pos p), (ld_of_pos (p + 1)), ld_one_eq by lia.
  set (d := Z.pos (digits2_pos p)) in *.
  set (d' := Z.pos (digits2_pos (p + 1))) in *.
  set (m' := Pos.shiftl (p + 1) (Z.to_N (64 - d'))).
  assert (Hm' : digits2_pos m' = 64%positive).
  { pose proof (digits2_shiftl (p + 1) (Z.to_N (64 - d'))) as H.
    fold m' d' in H. lia. }
  assert (Hzm' : Z.pos m' = (Z.pos (p + 1) * 2 ^ (64 - d'))%Z).
  { unfold m'. rewrite Zpos_shiftl, Z2N.id by lia. reflexivity. }
  pose proof (Zpos_shiftl p (Z.to_N (64 - d))) as Hzm.
  rewrite Z2N.id in Hzm by lia.
  unfold ldadd, SFadd. rewrite Z.min_r by lia.
  assert (Hsum : forall m1, Z.pos m1 = (Z.pos p * 2 ^ 63)%Z ->
            (m1 + 9223372036854775808)%positive = Pos.shiftl m' (Z.to_N (d' - 1))).
  { intros m1 Hm1. apply Pos2Z.inj.
    rewrite Pos2Z.inj_add, Hm1, Zpos_shiftl, Hzm', Z2N.id by lia.
    rewrite <- Z.mul_assoc, <- Z.pow_add_r by lia.
    replace (64 - d' + (d' - 1))%Z with 63%Z by lia.
    rewrite Pos2Z.inj_add. change (Z.pos 9223372036854775808) with (2 ^ 63)%Z.
    lia. }
  unfold shl_align. change (-63 - -63)%Z with 0%Z. cbv iota beta.
  destruct (-63 - (d - 64))%Z as [|δ|δ] eqn:Hδ; try lia;
    cbn [fst cond_Zopp]; rewrite <- Pos2Z.inj_add; unfold binary_normalize.
  - rewrite (Hsum _); [|rewrite Hzm; f_equal; f_equal; lia].
    rewrite binary_round_shift by (rewrite ?Z2N.id; auto; lia).
    f_equal. rewrite Z2N.id by lia. lia.
  - rewrite (Hsum _).
    + rewrite binary_round_shift by (rewrite ?Z2N.id; auto; lia).
      f_equal. rewrite Z2N.id by lia. lia.
    + rewrite Zpos_iter_xO, Hzm, <- Z.mul_assoc, <- Z.pow_add_r by lia.
      f_equal. f_equal. lia.
Qed.

(** ** create_path *)

Lemma sample_randperm_spec : @randperm_spec sample_utils.
Proof.
  intros n r. simpl. unfold rotate.
  rewrite Permutation_app_comm, take_drop. reflexivity.
Qed.

Section Sampler.
Context `{Utils}.
Hypothesis randperm_ok : randperm_spec.

Lemma create_path_spec (n : nat) (h : heap) (r : rng) :
  1 <= n ->
  exists tour first,
    create_path n h r
      = Some (fresh (dom h), <[fresh (dom h) := tour]> h, (randperm n r).2) /\
    tour = (randperm n r).1 ++ [first] /\
    (randperm n r).1 !! 0 = Some first /\
    valid_tour n tour.
Proof.
  intros Hn. unfold create_path.
  pose proof (randperm_ok n r) as Hperm.
  destruct (randperm n r) as [perm r'] eqn:Hr. simpl in *.
  assert (Hlen : length perm = n)
    by (rewrite (Permutation_length Hperm); apply length_seq).
  destruct (lookup_lt_is_Some_2 perm 0) as [first Hfirst]; [lia|].
  exists (perm ++ [first]), first. rewrite Hfirst. simpl.
  repeat split; auto.
  - rewrite length_app. simpl. lia.
  - assert (Hall : Forall (fun c => c < n) perm).
    { rewrite Hperm. apply Forall_forall. intros c Hc.
      apply elem_of_seq in Hc. lia. }
    apply Forall_app. split; [assumption|]. constructor; [|constructor].
    eapply (proj1 (Forall_lookup _ _) Hall); eauto.
Qed.

(** C4.  For [N >= 1], the tour that [create_path] stores has exactly
    [N + 1] entries, its first [N] entries are a permutation of
    [0..N-1], and its last entry equals its first. *)
Theorem create_path_tour_shape (n : nat) (h : heap) (r : rng) :
  1 <= n ->
  exists path h' r' tour c,
    create_path n h r = Some (path, h', r') /\
    h' !! path = Some tour /\
    length tour = n + 1 /\
    take n tour ≡ₚ seq 0 n /\
    tour !! 0 = Some c /\ tour !! n = Some c.
Proof.
  intros Hn.
  destruct (create_path_spec n h r Hn)
    as (tour & first & Hcp & Htour & Hfirst & [Hlen _]).
  pose proof (randperm_ok n r) as Hperm.
  assert (Hpl : length (randperm n r).1 = n)
    by (rewrite (Permutation_length Hperm); apply length_seq).
  exists (fresh (dom h)), (<[fresh (dom h) := tour]> h), (randperm n r).2,
    tour, first.
  repeat split; auto.
  - apply lookup_insert_eq.
  - subst tour. rewrite take_app_length' by auto. assumption.
  - subst tour. apply lookup_app_l_Some. assumption.
  - subst tour. rewrite lookup_app_r by lia.
    rewrite Hpl, Nat.sub_diag. reflexivity.
Qed.

End Sampler.

Lemma create_path_tour_shape_witness :
  exists path h' r' tour c,
    @create_path sample_utils 4 ∅ 1 = Some (path, h', r') /\
    h' !! path = Some tour /\
    length tour = 4 + 1 /\
    take 4 tour ≡ₚ seq 0 4 /\
    tour !! 0 = Some c /\ tour !! 4 = Some c.
Proof.
  apply (@create_path_tour_shape sample_utils sample_randperm_spec 4 ∅ 1).
  lia.
Defined.

(** ** One trial *)

Lemma fresh_not_live (h : heap) : h !! fresh (dom h) = None.
Proof. apply not_elem_of_dom, is_fresh. Qed.

Lemma feq_not_flt x y : feq x y = true -> flt x y = false.
Proof.
  unfold feq, flt, SFeqb, SFltb. destruct (SFcompare x y) as [[]|]; auto.
Qed.

Section Trial.
Context `{Utils}.

Lemma create_path_inv n (h : heap) r p h' r' :
  create_path n h r = Some (p, h', r') ->
  exists tour, p = fresh (dom h) /\ h' = <[p := tour]> h /\ h !! p = None.
Proof.
  unfold create_path. destruct (randperm n r) as [perm r1].
  destruct (perm !! 0) as [first|]; simpl; [|discriminate].
  intros [= <- <- <-]. exists (perm ++ [first]).
  auto using fresh_not_live.
Qed.

Lemma trial_unfold D n s path tour r1 len :
  create_path n (mem s) (rand s) = Some (path, <[path := tour]> (mem s), r1) ->
  mem s !! path = None ->
  measure_path D n tour = Some len ->
  trial D n s = Some (after_trial s path tour len r1).
Proof.
  intros Hcp Hfresh Hlen. unfold trial, after_trial. rewrite Hcp. simpl.
  rewrite lookup_insert_eq. simpl. rewrite Hlen. simpl.
  assert (Hq : fresh (dom (<[path := tour]> (mem s))) <> path).
  { intros E. pose proof (fresh_not_live (<[path := tour]> (mem s))) as Hf.
    rewrite E, lookup_insert_eq in Hf. discriminate. }
  destruct (flt len (min_len s)); simpl.
  - unfold array_copy, malloc_init. rewrite lookup_insert_eq. simpl.
    unfold free. rewrite lookup_insert_ne by assumption.
    rewrite lookup_insert_eq. reflexivity.
  - unfold free. rewrite lookup_insert_eq.
    rewrite delete_insert_eq, delete_id by assumption. reflexivity.
Qed.

Lemma trial_inv D n s s' :
  trial D n s = Some s' ->
  exists path tour r1 len,
    create_path n (mem s) (rand s) = Some (path, <[path := tour]> (mem s), r1) /\
    mem s !! path = None /\
    measure_path D n tour = Some len /\
    s' = after_trial s path tour len r1.
Proof.
  intros Ht.
  destruct (create_path n (mem s) (rand s)) as [[[path h1] r1]|] eqn:Hcp.
  - destruct (create_path_inv _ _ _ _ _ _ Hcp) as (tour & Hp & -> & Hfresh).
    destruct (measure_path D n tour) as [len|] eqn:Hlen.
    + exists path, tour, r1, len. repeat split; auto.
      rewrite (trial_unfold D n s path tour r1 len) in Ht by assumption.
      congruence.
    + unfold trial in Ht. rewrite Hcp in Ht. simpl in Ht.
      rewrite lookup_insert_eq in Ht. simpl in Ht. rewrite Hlen in Ht.
      discriminate.
  - unfold trial in Ht. rewrite Hcp in Ht. discriminate.
Qed.

(** C1.  In a trial the incumbent is replaced by the trial's tour and
    length if and only if the measured length is strictly less than
    [min_len]: if it is, [min_len] becomes that length and [min_path]
    points to a copy of the tour in a block of its own, which is still
    live after the trial's array is freed; if it is not (in particular
    when the two lengths are equal) [min_len], [min_path] and the heap
    are what they were before the trial. *)
Theorem incumbent_update (D : matrix) (n : nat) (s s' : search rng) :
  trial D n s = Some s' ->
  exists path tour r1 len,
    create_path n (mem s) (rand s) = Some (path, <[path := tour]> (mem s), r1) /\
    measure_path D n tour = Some len /\
    (flt len (min_len s) = true ->
       min_len s' = len /\
       exists q, min_path s' = Some q /\ q <> path /\
                 mem s !! q = None /\ mem s' !! q = Some tour) /\
    (flt len (min_len s) = false ->
       min_len s' = min_len s /\ min_path s' = min_path s /\ mem s' = mem s) /\
    (feq len (min_len s) = true -> flt len (min_len s) = false) /\
    mem s' !! path = None.
Proof.
  intros Ht.
  destruct (trial_inv D n s s' Ht) as (path & tour & r1 & len & Hcp & Hf & Hl & ->).
  exists path, tour, r1, len. unfold after_trial.
  pose proof (fresh_not_live (<[path := tour]> (mem s))) as Hn.
  assert (Hq : fresh (dom (<[path := tour]> (mem s))) <> path).
  { intros E. rewrite E, lookup_insert_eq in Hn. discriminate. }
  rewrite lookup_insert_ne in Hn by congruence.
  split; [assumption|]. split; [assumption|]. split; [|split; [|split]].
  - intros Hlt. rewrite Hlt. simpl. split; [reflexivity|].
    exists (fresh (dom (<[path := tour]> (mem s)))). repeat split; auto.
    rewrite lookup_delete_ne, lookup_insert_eq by congruence. reflexivity.
  - intros Hge. rewrite Hge. simpl. auto.
  - apply feq_not_flt.
  - destruct (flt len (min_len s)); simpl;
      [apply lookup_delete_eq|assumption].
Qed.

End Trial.

(** ** The counter [i]: exact up to [2^64], stuck there *)

Lemma ld_succ c :
  (0 <= c < 2 ^ 64)%Z -> ldadd (ld_of_Z c) ld_one = ld_of_Z (c + 1).
Proof.
  intros Hc. destruct c as [|p|p]; try lia.
  - reflexivity.
  - destruct (Z.eq_dec (Z.pos p) (2 ^ 64 - 1)%Z) as [E|E].
    + rewrite E. vm_compute. reflexivity.
    + apply ld_succ_pos. lia.
Qed.

Lemma ld_stall : ldadd (ld_of_Z (2 ^ 64)) ld_one = ld_of_Z (2 ^ 64).
Proof. vm_compute. reflexivity. Qed.

Lemma ld_two_64 : ld_of_Z (2 ^ 64) = S754_finite false 9223372036854775808 1.
Proof. vm_compute. reflexivity. Qed.

Lemma ld_counter_value c : (0 <= c <= 2 ^ 64)%Z -> counter_value (ld_of_Z c).
Proof.
  intros Hc. destruct c as [|p|p]; try lia.
  - left. reflexivity.
  - right. destruct (Z.eq_dec (Z.pos p) (2 ^ 64)%Z) as [E|E].
    + rewrite E, ld_two_64. eexists _, _. split; [reflexivity|lia].
    + assert (Hd : (Z.pos (digits2_pos p) <= 64)%Z)
        by (apply digits2_below; lia).
      rewrite ld_of_pos by assumption.
      eexists _, _. split; [reflexivity|lia].
Qed.

Lemma ld_lt a b :
  (0 <= a < b)%Z -> (b <= 2 ^ 64)%Z -> ldlt (ld_of_Z a) (ld_of_Z b) = true.
Proof.
  intros Hab Hb.
  destruct b as [|pb|pb]; try lia.
  assert (Hlb : exists mb eb, ld_of_Z (Z.pos pb) = S754_finite false mb eb /\
            ((Z.pos pb = 2 ^ 64 /\ eb = 1) \/
             (Z.pos pb < 2 ^ 64 /\ eb = Z.pos (digits2_pos pb) - 64 /\
              mb = Pos.shiftl pb (Z.to_N (64 - Z.pos (digits2_pos pb)))))%Z).
  { destruct (Z.eq_dec (Z.pos pb) (2 ^ 64)%Z) as [E|E].
    - rewrite E, ld_two_64. eexists _, _. split; [reflexivity|]. left. lia.
    - rewrite ld_of_pos by (apply digits2_below; lia).
      eexists _, _. split; [reflexivity|]. right. repeat split. lia. }
  destruct Hlb as (mb & eb & -> & Hcase).
  destruct a as [|pa|pa]; try lia; [reflexivity|].
  assert (Hda : (Z.pos (digits2_pos pa) <= 64)%Z) by (apply digits2_below; lia).
  rewrite ld_of_pos by assumption.
  unfold ldlt, SFltb, SFcompare.
  destruct Hcase as [[_ ->]|(Hlt & -> & ->)].
  - destruct (Z.compare_spec (Z.pos (digits2_pos pa) - 64) 1);
      first [reflexivity|lia].
  - pose proof (digits2_mono pa pb ltac:(lia)) as Hmono.
    destruct (Z.compare_spec (Z.pos (digits2_pos pa) - 64)
                (Z.pos (digits2_pos pb) - 64)) as [E|E|E];
      [|reflexivity|lia].
    replace (Z.pos (digits2_pos pb)) with (Z.pos (digits2_pos pa)) by lia.
    change (Pos.compare_cont Eq ?x ?y) with (Pos.compare x y).
    assert (Hc : (Pos.shiftl pa (Z.to_N (64 - Z.pos (digits2_pos pa)))
                  < Pos.shiftl pb (Z.to_N (64 - Z.pos (digits2_pos pa))))%positive).
    { assert (Z.pos (Pos.shiftl pa (Z.to_N (64 - Z.pos (digits2_pos pa))))
              < Z.pos (Pos.shiftl pb (Z.to_N (64 - Z.pos (digits2_pos pa)))))%Z;
        [|lia].
      rewrite !Zpos_shiftl.
      apply Z.mul_lt_mono_pos_r; [apply Z.pow_pos_nonneg; lia|lia]. }
    rewrite (proj2 (Pos.compare_lt_iff _ _) Hc). reflexivity.
Qed.

Lemma ld_lt_irrefl c : ldlt (ld_of_Z c) (ld_of_Z c) = false.
Proof.
  unfold ldlt, SFltb.
  rewrite SFcompare_refl by apply binary_normalize_not_nan. reflexivity.
Qed.

Lemma counter_below x y :
  counter_value x -> beyond_counter y -> ldlt x y = true.
Proof.
  intros [->|(m & e & -> & He)] [->|(m' & e' & -> & He')];
    try reflexivity.
  unfold ldlt, SFltb, SFcompare.
  destruct (Z.compare_spec e e'); first [reflexivity|lia].
Qed.

(** ** The search loop *)

Lemma flt_fle x y : flt x y = true -> fle x y = true /\ is_nan x = false.
Proof.
  unfold flt, fle, SFltb, SFleb.
  destruct (SFcompare x y) as [[]|] eqn:E; try discriminate.
  intros _. split; [reflexivity|]. destruct x; try reflexivity. discriminate.
Qed.

Lemma fle_refl x : is_nan x = false -> fle x x = true.
Proof. intros Hx. unfold fle, SFleb. rewrite SFcompare_refl; auto. Qed.

Section Loop.
Context `{Utils}.

Lemma trial_counter D n s s' :
  trial D n s = Some s' -> i s' = ldadd (i s) ld_one.
Proof.
  intros Ht. destruct (trial_inv D n s s' Ht) as (p & t & r & l & _ & _ & _ & ->).
  unfold after_trial. destruct (flt l (min_len s)); reflexivity.
Qed.

(** A trial never raises [min_len], and [min_len] is never a NaN. *)
Lemma trial_min_len D n s s' :
  trial D n s = Some s' -> is_nan (min_len s) = false ->
  fle (min_len s') (min_len s) = true /\ is_nan (min_len s') = false.
Proof.
  intros Ht Hnan.
  destruct (trial_inv D n s s' Ht) as (p & t & r & l & _ & _ & _ & ->).
  unfold after_trial. destruct (flt l (min_len s)) eqn:Hlt; simpl.
  - apply flt_fle, Hlt.
  - auto using fle_refl.
Qed.

Lemma trials_snoc k D n s :
  trials (S k) D n s = (s' ← trials k D n s; trial D n s').
Proof.
  revert s. induction k as [|k IH]; intros s.
  - simpl. destruct (trial D n s); reflexivity.
  - change (trials (S (S k)) D n s)
      with (s' ← trial D n s; trials (S k) D n s').
    change (trials (S k) D n s) with (s' ← trial D n s; trials k D n s').
    destruct (trial D n s) as [s1|]; simpl; [apply IH|reflexivity].
Qed.

Lemma trials_not_nan k D n s s' :
  trials k D n s = Some s' -> is_nan (min_len s) = false ->
  is_nan (min_len s') = false.
Proof.
  revert s. induction k as [|k IH]; simpl; intros s Hk Hnan.
  - congruence.
  - destruct (trial D n s) as [s1|] eqn:Ht; [|discriminate].
    simpl in Hk. apply (IH s1 Hk). eapply trial_min_len; eauto.
Qed.

Lemma trials_counter k D n s s' c :
  trials k D n s = Some s' -> i s = ld_of_Z c ->
  (0 <= c)%Z -> (c + Z.of_nat k <= 2 ^ 64)%Z ->
  i s' = ld_of_Z (c + Z.of_nat k).
Proof.
  revert s c. induction k as [|k IH]; simpl trials; intros s c Hk Hi Hc Hb.
  - injection Hk as <-. rewrite Hi. f_equal. lia.
  - destruct (trial D n s) as [s1|] eqn:Ht; [|discriminate].
    simpl in Hk. rewrite (IH s1 (c + 1)%Z) by
      (try assumption; try lia;
       rewrite (trial_counter _ _ _ _ Ht), Hi; apply ld_succ; lia).
    f_equal. lia.
Qed.

(** While the counter is below the bound, [k] turns of the loop are
    [k] trials. *)
Lemma search_loop_trials k D n T s s' c fuel :
  trials k D n s = Some s' -> i s = ld_of_Z c ->
  (0 <= c)%Z -> (c + Z.of_nat k <= T)%Z -> (T <= 2 ^ 64)%Z ->
  search_loop (k + fuel) D n (ld_of_Z T) s
  = search_loop fuel D n (ld_of_Z T) s'.
Proof.
  revert s c. induction k as [|k IH]; simpl trials; intros s c Hk Hi Hc Hb HT.
  - injection Hk as <-. reflexivity.
  - destruct (trial D n s) as [s1|] eqn:Ht; [|discriminate].
    simpl in Hk. change (S k + fuel) with (S (k + fuel)).
    cbn [search_loop]. rewrite Hi, ld_lt, Ht by lia.
    apply (IH s1 (c + 1)%Z); try assumption; try lia.
    rewrite (trial_counter _ _ _ _ Ht), Hi. apply ld_succ. lia.
Qed.

Hypothesis randperm_ok : randperm_spec.

Lemma trial_defined D n s :
  1 <= n -> full_table n D -> exists s', trial D n s = Some s'.
Proof.
  intros Hn Hfull.
  destruct (create_path_spec randperm_ok n (mem s) (rand s) Hn)
    as (tour & first & Hcp & _ & _ & Hvalid).
  destruct (edges_defined n D tour Hvalid Hfull) as [ds Hds].
  eexists. eapply trial_unfold; eauto using fresh_not_live.
  apply measure_from, Hds.
Qed.

Lemma trials_defined k D n s :
  1 <= n -> full_table n D -> exists s', trials k D n s = Some s'.
Proof.
  intros Hn Hfull. revert s. induction k as [|k IH]; intros s; simpl.
  - eauto.
  - destruct (trial_defined D n s Hn Hfull) as [s1 ->]. simpl. apply IH.
Qed.

(** A bound that the counter cannot reach keeps the loop running. *)
Lemma search_loop_forever fuel D n bound s c :
  1 <= n -> full_table n D -> beyond_counter bound ->
  i s = ld_of_Z c -> (0 <= c <= 2 ^ 64)%Z ->
  search_loop fuel D n bound s = OutOfFuel.
Proof.
  intros Hn Hfull Hbound. revert s c.
  induction fuel as [|fuel IH]; intros s c Hi Hc; [reflexivity|].
  cbn [search_loop].
  rewrite Hi, counter_below by auto using ld_counter_value.
  destruct (trial_defined D n s Hn Hfull) as [s1 Ht]. rewrite Ht.
  destruct (Z.eq_dec c (2 ^ 64)%Z) as [->|Hne].
  - apply (IH s1 (2 ^ 64)%Z); [|lia].
    rewrite (trial_counter _ _ _ _ Ht), Hi. apply ld_stall.
  - apply (IH s1 (c + 1)%Z); [|lia].
    rewrite (trial_counter _ _ _ _ Ht), Hi. apply ld_succ. lia.
Qed.

End Loop.

Section Search.
Context `{Utils}.

Lemma search_loop_done (T fuel : nat) D n seed s :
  trials T D n (search_init seed) = Some s ->
  (Z.of_nat T <= 2 ^ 64)%Z -> T < fuel ->
  i s = ld_of_Z (Z.of_nat T) /\
  search_loop fuel D n (ld_of_Z (Z.of_nat T)) (search_init seed) = Done s.
Proof.
  intros Ht HT Hfuel.
  assert (Hi : i s = ld_of_Z (Z.of_nat T)).
  { rewrite (trials_counter T D n _ s 0%Z Ht); [f_equal; lia|reflexivity|lia|lia]. }
  split; [assumption|].
  replace fuel with (T + S (fuel - T - 1)) by lia.
  rewrite (search_loop_trials T D n (Z.of_nat T) _ s 0%Z) by
    (try assumption; try reflexivity; lia).
  cbn [search_loop]. rewrite Hi, ld_lt_irrefl. reflexivity.
Qed.

Hypothesis randperm_ok : randperm_spec.

(** The loop with [num_iter = T] is [T] trials, and needs [T + 1] tests
    of its condition. *)
Lemma search_loop_count (D : matrix) (n : nat) (seed : rng) (T : nat) :
  1 <= n -> full_table n D -> (Z.of_nat T <= 2 ^ 64)%Z ->
  exists s,
    trials T D n (search_init seed) = Some s /\
    i s = ld_of_Z (Z.of_nat T) /\
    forall fuel,
      search_loop fuel D n (ld_of_Z (Z.of_nat T)) (search_init seed)
      = if decide (T < fuel) then Done s else OutOfFuel.
Proof.
  intros Hn Hfull HT.
  destruct (trials_defined randperm_ok T D n (search_init seed) Hn Hfull)
    as [s Hs].
  exists s. split; [assumption|].
  split; [apply (search_loop_done T (S T) D n seed s); auto; lia|].
  intros fuel. destruct (decide (T < fuel)) as [Hlt|Hge].
  - apply search_loop_done; assumption.
  - destruct (trials_defined randperm_ok fuel D n (search_init seed) Hn Hfull)
      as [s' Hs'].
    replace fuel with (fuel + 0) at 1 by lia.
    rewrite (search_loop_trials fuel D n (Z.of_nat T) _ s' 0%Z) by
      (try assumption; try reflexivity; lia).
    reflexivity.
Qed.

(** C5.  From the same seed, and so with the same sequence of sampled
    tours, the best length after [T + 1] trials is less than or equal to
    the best length after the first [T] of them; these are the lengths
    that the loop leaves in [min_len] when [num_iter] is [T + 1] and
    [T]. *)
Theorem best_length_monotone (D : matrix) (n : nat) (seed : rng) (T : nat) :
  1 <= n -> full_table n D ->
  exists s1 s2,
    trials T D n (search_init seed) = Some s1 /\
    trials (S T) D n (search_init seed) = Some s2 /\
    fle (min_len s2) (min_len s1) = true /\
    ((Z.of_nat (S T) <= 2 ^ 64)%Z -> forall fuel, S T < fuel ->
       search_loop fuel D n (ld_of_Z (Z.of_nat T)) (search_init seed) = Done s1 /\
       search_loop fuel D n (ld_of_Z (Z.of_nat (S T))) (search_init seed)
       = Done s2).
Proof.
  intros Hn Hfull.
  destruct (trials_defined randperm_ok T D n (search_init seed) Hn Hfull)
    as [s1 Hs1].
  destruct (trial_defined randperm_ok D n s1 Hn Hfull) as [s2 Hs2].
  assert (Hs12 : trials (S T) D n (search_init seed) = Some s2)
    by (rewrite trials_snoc, Hs1; exact Hs2).
  exists s1, s2. repeat split; auto.
  - apply (trial_min_len D n s1 s2 Hs2).
    apply (trials_not_nan T D n _ s1 Hs1). reflexivity.
  - apply search_loop_done; auto; lia.
  - apply search_loop_done; auto; lia.
Qed.

End Search.

Lemma unit_square_table :
  exists D, distance_matrix unit_square 4 = Some D /\ full_table 4 D.
Proof.
  destruct (distance_matrix unit_square 4) as [D|] eqn:HD; [|discriminate].
  exists D. split; [reflexivity|].
  apply (distance_matrix_full unit_square D HD).
Defined.

Lemma best_length_monotone_witness :
  exists D, distance_matrix unit_square 4 = Some D /\
  exists s1 s2,
    @trials sample_utils 2 D 4 (@search_init sample_utils 0) = Some s1 /\
    @trials sample_utils 3 D 4 (@search_init sample_utils 0) = Some s2 /\
    fle (min_len s2) (min_len s1) = true /\
    ((Z.of_nat 3 <= 2 ^ 64)%Z -> forall fuel, 3 < fuel ->
       @search_loop sample_utils fuel D 4 (ld_of_Z (Z.of_nat 2)) (@search_init sample_utils 0)
       = Done s1 /\
       @search_loop sample_utils fuel D 4 (ld_of_Z (Z.of_nat 3)) (@search_init sample_utils 0)
       = Done s2).
Proof.
  destruct unit_square_table as (D & HD & Hfull).
  exists D. split; [assumption|].
  apply (@best_length_monotone sample_utils sample_randperm_spec D 4 0 2);
    [lia|assumption].
Defined.

Lemma incumbent_update_witness :
  exists D s' tour len, distance_matrix unit_square 4 = Some D /\
    @trial sample_utils D 4 (@search_init sample_utils 0) = Some s' /\
    measure_path D 4 tour = Some len /\
    (flt len FLT_MAX = true -> min_len s' = len) /\
    (flt len FLT_MAX = false ->
       min_len s' = FLT_MAX /\ min_path s' = None /\ mem s' = ∅).
Proof.
  destruct unit_square_table as (D & HD & Hfull).
  destruct (@trial_defined sample_utils sample_randperm_spec D 4
              (@search_init sample_utils 0)) as [s' Hs']; [lia|assumption|].
  destruct (@incumbent_update sample_utils D 4 _ s' Hs')
    as (path & tour & r1 & len & Hcp & Hlen & Hlt & Hge & _).
  exists D, s', tour, len. repeat split; auto; try apply Hge; auto.
  apply Hlt; assumption.
Defined.

(** ** The command line *)

Section Options.
Context `{Utils}.

Lemma count_rows_cases lines acc :
  count_rows lines acc = (-1)%Z \/
  count_rows lines acc = (acc + Z.of_nat (length lines))%Z.
Proof.
  revert acc. induction lines as [|line rest IH]; intros acc; simpl.
  - right. lia.
  - destruct (is_coordinate line); [|left; reflexivity].
    destruct (IH (acc + 1)%Z) as [-> | ->]; [left; reflexivity|right; lia].
Qed.

Lemma read_file_cases fs file n array :
  read_file fs file = (n, array) ->
  n = 0%Z \/ n = (-1)%Z \/
  ((1 <= n)%Z /\ exists rows, array = Some rows /\ Z.of_nat (length rows) = n).
Proof.
  unfold read_file. destruct (fs file) as [lines|]; [|intros [= <- <-]; auto].
  destruct (decide (count_rows lines 0 = (-1)%Z)) as [E|E];
    [intros [= <- <-]; auto|].
  intros [= <- <-].
  destruct (count_rows_cases lines 0) as [E'|E']; [contradiction|].
  rewrite E'. destruct lines as [|line rest]; [left; reflexivity|].
  right. right. split; [simpl; lia|].
  eexists. split; [reflexivity|]. rewrite length_fmap. lia.
Qed.

Lemma handle_option_cities fs c v v' :
  handle_option fs c v = inr v' -> cities_ok v -> cities_ok v'.
Proof.
  unfold cities_ok. destruct c as [arg|arg|arg| | |]; simpl; try discriminate.
  - destruct (is_integer arg); simpl; [|discriminate]. intros [= <-]. auto.
  - destruct (is_positive_number arg); simpl; [|discriminate].
    destruct (2 <? atoi arg)%Z; [discriminate|]. intros [= <-]. auto.
  - destruct (read_file fs arg) as [n array] eqn:Hr.
    destruct (decide (n = 0%Z)); [discriminate|].
    destruct (decide (n = (-1)%Z)); [discriminate|].
    intros [= <-] _ _. simpl.
    destruct (read_file_cases fs arg n array Hr)
      as [?|[?|(Hn & rows & -> & Hlen)]]; try contradiction.
    simpl. auto.
Qed.

Lemma parse_options_cities fs opts v v' :
  parse_options fs opts v = inr v' -> cities_ok v -> cities_ok v'.
Proof.
  revert v. induction opts as [|c rest IH]; simpl; intros v Hp Hv.
  - injection Hp as <-. assumption.
  - destruct (handle_option fs c v) as [o|v1] eqn:Hc; [discriminate|].
    eauto using handle_option_cities.
Qed.

(** What [main] knows when the three checks have passed. *)
Lemma configure_checked fs opts extra stack v :
  configure fs opts extra stack = inr v ->
  nflag v = true /\ mflag v = true /\ fflag v = true /\
  overflow_guard (num_iter v) = false /\
  (1 <= num_cities v)%Z /\ length (coord v) = Z.to_nat (num_cities v).
Proof.
  unfold configure.
  destruct (parse_options fs opts (initial_locals stack)) as [o|v1] eqn:Hp;
    [discriminate|].
  destruct (decide (0 < extra)); [discriminate|].
  destruct (overflow_guard (num_iter v1)) eqn:Hg; [discriminate|].
  destruct (nflag v1) eqn:Hnf, (mflag v1) eqn:Hmf, (fflag v1) eqn:Hf;
    simpl; try discriminate.
  intros [= <-].
  assert (H0 : cities_ok (initial_locals stack))
    by (intros Hff; discriminate).
  destruct (parse_options_cities fs opts _ v1 Hp H0 Hf) as [Hn Hlen].
  repeat split; auto. lia.
Qed.

(** C10.  A readable data file without any record makes [read_file]
    return 0; [main] answers as for a file that cannot be opened, with
    the message "no such file or directory" and [exit (EXIT_FAILURE)],
    as soon as it handles the option, whatever follows on the command
    line; and whenever [main] gets past its checks, to [distance_matrix]
    and the trials, the number of cities is at least 1 (and is the
    number of rows of [coord]). *)
Theorem empty_file_is_rejected (fs : file_system) (file : string) :
  fs file = Some [] ->
  (read_file fs file).1 = 0%Z /\
  (forall v, handle_option fs (Opt_f file) v = inl (Exit_failure msg_no_file)) /\
  (forall missing v, fs missing = None ->
     handle_option fs (Opt_f missing) v = inl (Exit_failure msg_no_file)) /\
  (forall before after extra stack v1 fuel seed,
     parse_options fs before (initial_locals stack) = inr v1 ->
     main fuel fs (before ++ Opt_f file :: after) extra stack seed
     = Exit_failure msg_no_file) /\
  (forall fuel opts extra stack seed,
     (exists o, configure fs opts extra stack = inl o /\
                main fuel fs opts extra stack seed = o) \/
     (exists v, configure fs opts extra stack = inr v /\
                main fuel fs opts extra stack seed = run fuel seed v /\
                1 <= Z.to_nat (num_cities v) /\
                length (coord v) = Z.to_nat (num_cities v))).
Proof.
  intros Hfile.
  assert (Hread : read_file fs file = (0%Z, Some [])).
  { unfold read_file. rewrite Hfile. reflexivity. }
  assert (Hopt : forall v,
            handle_option fs (Opt_f file) v = inl (Exit_failure msg_no_file)).
  { intros v. unfold handle_option. rewrite Hread. reflexivity. }
  split; [rewrite Hread; reflexivity|]. split; [assumption|]. split; [|split].
  - intros missing v Hmiss. unfold handle_option, read_file.
    rewrite Hmiss. reflexivity.
  - intros before after extra stack v1 fuel seed Hbefore.
    unfold main, configure.
    assert (Hp : forall opts v0, parse_options fs opts v0 = inr v1 ->
              parse_options fs (opts ++ Opt_f file :: after) v0
              = inl (Exit_failure msg_no_file)).
    { induction opts as [|c rest IH]; cbn [app parse_options]; intros v0 Hv0.
      - injection Hv0 as ->. rewrite Hopt. reflexivity.
      - destruct (handle_option fs c v0); [discriminate|]. apply IH, Hv0. }
    rewrite (Hp before _ Hbefore). reflexivity.
  - intros fuel opts extra stack seed. unfold main.
    destruct (configure fs opts extra stack) as [o|v] eqn:Hc.
    + left. eauto.
    + right. exists v.
      destruct (configure_checked _ _ _ _ _ Hc) as (_ & _ & _ & _ & Hn & Hlen).
      repeat split; auto. lia.
Qed.

End Options.

Lemma empty_file_is_rejected_witness :
  (@read_file sample_utils sample_fs "empty").1 = 0%Z /\
  @main sample_utils 9 sample_fs [Opt_n "5"; Opt_f "empty"; Opt_m "0"]%string
    0 sample_stack 0
  = Exit_failure msg_no_file.
Proof.
  destruct (@empty_file_is_rejected sample_utils sample_fs "empty" eq_refl)
    as (Hread & _ & _ & Hmain & _).
  split; [exact Hread|].
  apply (Hmain [Opt_n "5"%string] [Opt_m "0"%string] 0 sample_stack
           (Locals true false false (ld_of_Z 5) 7 (-3) [])).
  reflexivity.
Defined.

(** ** main *)

Section Main.
Context `{Utils}.

(** C6, on the code.  With [num_iter = 0] the loop body is never run
    and the loop leaves the initial state: [min_len] is [FLT_MAX] (a
    finite number, not an infinity) and [min_path] is still an
    indeterminate pointer.  [main] does not treat this case apart: it
    goes on to [print_repo] and [free] with that pointer, which is
    undefined behaviour. *)
Theorem zero_trials_undefined fs opts extra stack seed v (fuel : nat) :
  configure fs opts extra stack = inr v ->
  num_iter v = ld_of_Z 0 ->
  main (S fuel) fs opts extra stack seed = Undefined_behaviour /\
  (forall D n, search_loop (S fuel) D n (num_iter v) (search_init seed)
               = Done (search_init seed)) /\
  min_path (search_init seed) = None /\
  min_len (search_init seed) = FLT_MAX /\
  is_finite FLT_MAX = true.
Proof.
  intros Hc Hni.
  assert (Hloop : forall D n,
            search_loop (S fuel) D n (num_iter v) (search_init seed)
            = Done (search_init seed)).
  { intros D n. rewrite Hni. reflexivity. }
  repeat split; auto.
  unfold main. rewrite Hc. unfold run.
  destruct (distance_matrix _ _) as [D|]; [|reflexivity].
  rewrite Hloop. reflexivity.
Qed.

Hypothesis randperm_ok : randperm_spec.

(** Past the checks, with a bound that the counter cannot reach,
    [main] never gets to its report. *)
Lemma main_never_ends fs opts extra stack seed v :
  configure fs opts extra stack = inr v ->
  beyond_counter (num_iter v) ->
  forall fuel, main fuel fs opts extra stack seed = Out_of_fuel.
Proof.
  intros Hc Hb fuel. unfold main. rewrite Hc. unfold run.
  destruct (configure_checked _ _ _ _ _ Hc) as (_ & _ & _ & _ & Hn & Hlen).
  rewrite <- Hlen.
  destruct (distance_matrix_written (coord v)) as (D & HD & _).
  rewrite HD.
  rewrite (search_loop_forever randperm_ok fuel D (length (coord v))
             (num_iter v) (search_init seed) 0%Z);
    try reflexivity; try lia; auto using distance_matrix_full.
Qed.

(** C7, amended.  For every trial count [T] from 0 to [2^64] that
    passes the checks of [main] (and that [num_iter] then holds
    exactly), the loop runs its body exactly [T] times and ends: its
    final state is the state after [T] trials, with [i = T], and
    [main] goes on to its report.  The loop condition is tested
    [T + 1] times: a bound of [T] tests or fewer is not enough, and
    every larger bound gives the same result. *)
Theorem search_loop_exact fs opts extra stack seed v (T : nat) :
  configure fs opts extra stack = inr v ->
  num_iter v = ld_of_Z (Z.of_nat T) -> (Z.of_nat T <= 2 ^ 64)%Z ->
  exists D s,
    distance_matrix (coord v) (Z.to_nat (num_cities v)) = Some D /\
    trials T D (Z.to_nat (num_cities v)) (search_init seed) = Some s /\
    i s = ld_of_Z (Z.of_nat T) /\
    forall fuel,
      search_loop fuel D (Z.to_nat (num_cities v)) (num_iter v)
        (search_init seed)
      = (if decide (T < fuel) then Done s else OutOfFuel) /\
      main fuel fs opts extra stack seed
      = (if decide (T < fuel) then report v s else Out_of_fuel).
Proof.
  intros Hc Hni HT.
  destruct (configure_checked _ _ _ _ _ Hc) as (_ & _ & _ & _ & Hn & Hlen).
  destruct (distance_matrix_written (coord v)) as (D & HD & _).
  pose proof (distance_matrix_full _ _ HD) as Hfull.
  rewrite Hlen in HD, Hfull.
  destruct (search_loop_count randperm_ok D (Z.to_nat (num_cities v)) seed T)
    as (s & Hs & Hi & Hloop); [lia|assumption|assumption|].
  exists D, s. repeat split; auto.
  - rewrite Hni. apply Hloop.
  - unfold main. rewrite Hc. unfold run. rewrite HD, Hni, Hloop.
    destruct (decide (T < fuel)); reflexivity.
Qed.

End Main.

Lemma zero_trials_undefined_witness :
  @main sample_utils 5 sample_fs
    [Opt_n "0"; Opt_m "0"; Opt_f "cities"]%string 0 sample_stack 0
  = Undefined_behaviour.
Proof.
  destruct (@configure sample_utils sample_fs
              [Opt_n "0"; Opt_m "0"; Opt_f "cities"]%string 0 sample_stack)
    as [o|v] eqn:Hc; [vm_compute in Hc; discriminate|].
  apply (@zero_trials_undefined sample_utils sample_fs
           [Opt_n "0"; Opt_m "0"; Opt_f "cities"]%string 0 sample_stack 0 v 4 Hc).
  vm_compute in Hc. injection Hc as <-. reflexivity.
Defined.

Lemma search_loop_exact_witness :
  exists v D s,
    @configure sample_utils sample_fs
      [Opt_n "3"; Opt_m "0"; Opt_f "cities"]%string 0 sample_stack = inr v /\
    distance_matrix (coord v) (Z.to_nat (num_cities v)) = Some D /\
    @trials sample_utils 3 D (Z.to_nat (num_cities v))
      (@search_init sample_utils 0) = Some s /\
    i s = ld_of_Z 3 /\
    @main sample_utils 4 sample_fs
      [Opt_n "3"; Opt_m "0"; Opt_f "cities"]%string 0 sample_stack 0
    = @report sample_utils v s.
Proof.
  destruct (@configure sample_utils sample_fs
              [Opt_n "3"; Opt_m "0"; Opt_f "cities"]%string 0 sample_stack)
    as [o|v] eqn:Hc; [vm_compute in Hc; discriminate|].
  assert (Hni : num_iter v = ld_of_Z (Z.of_nat 3))
    by (vm_compute in Hc; injection Hc as <-; reflexivity).
  destruct (@search_loop_exact sample_utils sample_randperm_spec
              sample_fs _ 0 sample_stack 0 v 3 Hc Hni)
    as (D & s & HD & Hs & Hi & Hloop); [vm_compute; discriminate|].
  exists v, D, s. repeat split; auto.
  apply (Hloop 4).
Defined.

(** The scenario of the specification: on the unit square, three
    trials report a tour of length 4. *)
Example unit_square_run :
  @main sample_utils 4 sample_fs
    [Opt_n "3"; Opt_m "0"; Opt_f "cities"]%string 0 sample_stack 0
  = Report [0; 1; 2; 3; 0] (float_of_Z 4) (ld_of_Z 3).
Proof. vm_compute. reflexivity. Qed.

(** C7 as stated fails.  The trial count [2^65] passes every check of
    [main], but [i] stops growing at [2^64] ([2^64 + 1] rounds to
    [2^64]), so the loop never ends: however many times its condition
    is tested, [main] has not returned. *)
Lemma search_loop_never_ends :
  exists v,
    @configure sample_utils sample_fs
      [Opt_n "36893488147419103232"; Opt_m "0"; Opt_f "cities"]%string
      0 sample_stack = inr v /\
    num_iter v = ld_of_Z (2 ^ 65) /\
    ~ exists fuel,
        @main sample_utils fuel sample_fs
          [Opt_n "36893488147419103232"; Opt_m "0"; Opt_f "cities"]%string
          0 sample_stack 0 <> Out_of_fuel.
Proof.
  destruct (@configure sample_utils sample_fs
              [Opt_n "36893488147419103232"; Opt_m "0"; Opt_f "cities"]%string
              0 sample_stack) as [o|v] eqn:Hc; [vm_compute in Hc; discriminate|].
  assert (Hni : num_iter v = S754_finite false 9223372036854775808 2)
    by (vm_compute in Hc; injection Hc as <-; reflexivity).
  exists v. split; [reflexivity|]. split; [rewrite Hni; reflexivity|].
  intros [fuel Hfuel]. apply Hfuel.
  apply (@main_never_ends sample_utils sample_randperm_spec _ _ _ _ _ v Hc).
  right. rewrite Hni. eexists _, _. split; [reflexivity|lia].
Qed.

(** ** Trial counts above the range of long double *)

Lemma shr_1_pos mrs p :
  shr_m mrs = Z.pos p -> (2 <= Z.pos (digits2_pos p))%Z ->
  exists p', shr_m (shr_1 mrs) = Z.pos p' /\
             Z.pos (digits2_pos p') = (Z.pos (digits2_pos p) - 1)%Z.
Proof.
  destruct mrs as [m r t]. simpl. intros -> Hd.
  destruct p as [q|q|]; simpl in *; [exists q|exists q|lia]; split; auto; lia.
Qed.

Lemma iter_shr_1_pos n mrs p :
  shr_m mrs = Z.pos p -> (Z.pos n < Z.pos (digits2_pos p))%Z ->
  exists p', shr_m (Pos.iter shr_1 mrs n) = Z.pos p' /\
             Z.pos (digits2_pos p') = (Z.pos (digits2_pos p) - Z.pos n)%Z.
Proof.
  induction n as [|n IH] using Pos.peano_ind; intros Hm Hn.
  - apply shr_1_pos; [assumption|lia].
  - rewrite Pos.iter_succ.
    destruct IH as (q & Hq & Hdq); [assumption|lia|].
    destruct (shr_1_pos _ q Hq) as (q' & Hq' & Hdq'); [lia|].
    exists q'. split; [assumption|lia].
Qed.

Lemma digits2_succ_le p :
  (Z.pos (digits2_pos p) <= Z.pos (digits2_pos (p + 1))
   <= Z.pos (digits2_pos p) + 1)%Z.
Proof.
  split; [apply digits2_mono; lia|].
  destruct (Z.le_gt_cases (Z.pos (digits2_pos (p + 1)))
              (Z.pos (digits2_pos p) + 1)) as [|Hgt]; [assumption|exfalso].
  pose proof (digits2_bounds p) as [_ Hp].
  pose proof (digits2_bounds (p + 1)) as [Hp' _].
  assert (2 ^ (Z.pos (digits2_pos p) + 1)
          <= 2 ^ (Z.pos (digits2_pos (p + 1)) - 1))%Z
    by (apply Z.pow_le_mono_r; lia).
  rewrite Z.pow_add_r in * by lia. lia.
Qed.

(** An integer of more than 16384 bits is above [LDBL_MAX]: it rounds
    to [+infinity]. *)
Lemma binary_round_aux_large p :
  (16385 <= Z.pos (digits2_pos p))%Z ->
  binary_round_aux 64 16384 false (Z.pos p) 0 loc_Exact = S754_infinity false.
Proof.
  intros Hd. unfold binary_round_aux, shr_fexp at 1, Zdigits2, shr.
  rewrite fexp_ld by lia.
  destruct (Z.pos (digits2_pos p) + 0 - 64 - 0)%Z as [|n|n] eqn:Hn; try lia.
  rewrite iter_pos_iter. cbn [shr_record_of_loc].
  destruct (iter_shr_1_pos n (Build_shr_record (Z.pos p) false false) p)
    as (q & Hq & Hdq); [reflexivity|lia|].
  rewrite Hq.
  set (l := loc_of_shr_record _). clearbody l.
  assert (Hr : exists q', round_nearest_even (Z.pos q) l = Z.pos q' /\
            (64 <= Z.pos (digits2_pos q') <= 65)%Z).
  { pose proof (digits2_succ_le q) as Hs.
    destruct l as [|[]]; cbn [round_nearest_even];
      try (exists q; split; [reflexivity|lia]);
      try (exists (q + 1)%positive; split; [reflexivity|lia]).
    destruct (Z.even (Z.pos q));
      [exists q|exists (q + 1)%positive]; split; try reflexivity; lia. }
  destruct Hr as (q' & -> & Hdq').
  unfold shr_fexp, Zdigits2, shr. rewrite fexp_ld by lia.
  cbn [shr_record_of_loc].
  destruct (Z.pos (digits2_pos q') + (0 + Z.pos n) - 64 - (0 + Z.pos n))%Z
    as [|k|k] eqn:Hk; try lia.
  - cbn [shr_m]. destruct (Z.leb_spec (0 + Z.pos n) (16384 - 64));
      [lia|reflexivity].
  - rewrite iter_pos_iter.
    destruct (iter_shr_1_pos k (Build_shr_record (Z.pos q') false false) q')
      as (q'' & Hq'' & _); [reflexivity|lia|].
    rewrite Hq''.
    destruct (Z.leb_spec (0 + Z.pos n + Z.pos k) (16384 - 64));
      [lia|reflexivity].
Qed.

(** [strtold] overflows to [+infinity] from [2^16384] on. *)
Lemma ld_of_Z_large k z :
  (16384 <= k)%Z -> (2 ^ k <= z)%Z -> ld_of_Z z = S754_infinity false.
Proof.
  intros Hk Hz.
  assert (Hpos : (0 < 2 ^ k)%Z) by (apply Z.pow_pos_nonneg; lia).
  destruct z as [|p|p]; try lia.
  assert (Hd : (16385 <= Z.pos (digits2_pos p))%Z).
  { destruct (Z.le_gt_cases 16385 (Z.pos (digits2_pos p))); [assumption|].
    pose proof (digits2_bounds p) as [_ Hhi].
    assert (2 ^ Z.pos (digits2_pos p) <= 2 ^ k)%Z
      by (apply Z.pow_le_mono_r; lia).
    lia. }
  unfold ld_of_Z, binary_normalize, binary_round, shl_align.
  rewrite fexp_ld by lia.
  destruct (Z.pos (digits2_pos p) + 0 - 64 - 0)%Z eqn:Hn; try lia.
  apply binary_round_aux_large, Hd.
Qed.

Lemma ld_of_Z_overflow z :
  (2 ^ 16384 <= z)%Z -> ld_of_Z z = S754_infinity false.
Proof. apply ld_of_Z_large. discriminate. Qed.

Lemma parse_zeros n acc :
  parse_digits (zeros n) acc = Some (acc * 10 ^ Z.of_nat n)%Z.
Proof.
  revert acc. induction n as [|n IH]; intros acc.
  - simpl. f_equal. lia.
  - change (parse_digits (zeros (S n)) acc)
      with (parse_digits (zeros n) (10 * acc + 0)%Z).
    rewrite IH, Nat2Z.inj_succ, Z.pow_succ_r by lia. f_equal. lia.
Qed.

Lemma power_of_ten_value n :
  is_digits (power_of_ten n) = true /\
  digits_value (power_of_ten n) = (10 ^ Z.of_nat n)%Z.
Proof.
  assert (Hp : parse_digits (power_of_ten n) 0 = Some (10 ^ Z.of_nat n)%Z).
  { change (parse_digits (power_of_ten n) 0)
      with (parse_digits (zeros n) (10 * 0 + 1)%Z).
    rewrite parse_zeros. f_equal. lia. }
  split.
  - unfold is_digits, power_of_ten. fold (power_of_ten n). rewrite Hp.
    apply bool_decide_eq_true. eauto.
  - unfold digits_value. rewrite Hp. reflexivity.
Qed.

Lemma power_of_ten_5000 : (2 ^ 16384 <= 10 ^ Z.of_nat 5000)%Z.
Proof.
  replace (Z.of_nat 5000) with (10 * 500)%Z by reflexivity.
  rewrite Z.pow_mul_r by lia.
  transitivity ((2 ^ 33) ^ 500)%Z.
  - rewrite <- Z.pow_mul_r by lia. apply Z.pow_le_mono_r; lia.
  - apply Z.pow_le_mono_l. split; [apply Z.pow_nonneg; lia|].
    vm_compute. discriminate.
Qed.

(** C8, on the code.  The guard [num_iter + 1 < num_iter] is false at
    [+infinity], the value that [strtold] returns for a count above
    [LDBL_MAX].  With [-n 1e5000] written out in digits, [main] passes
    its checks and enters the loop, which then never ends. *)
Theorem overflow_guard_misses_infinity :
  overflow_guard (S754_infinity false) = false /\
  exists v,
    @configure sample_utils sample_fs
      [Opt_n (power_of_ten 5000); Opt_m "0"%string; Opt_f "cities"%string]
      0 sample_stack = inr v /\
    num_iter v = S754_infinity false /\
    forall fuel,
      @main sample_utils fuel sample_fs
        [Opt_n (power_of_ten 5000); Opt_m "0"%string; Opt_f "cities"%string]
        0 sample_stack 0 = Out_of_fuel.
Proof.
  split; [reflexivity|].
  destruct (power_of_ten_value 5000) as [Hint Hval].
  assert (Hinf : @strtold sample_utils (power_of_ten 5000) = S754_infinity false).
  { change (@strtold sample_utils (power_of_ten 5000))
      with (ld_of_Z (digits_value (power_of_ten 5000))).
    rewrite Hval. apply ld_of_Z_overflow, power_of_ten_5000. }
  assert (Hc : @configure sample_utils sample_fs
             [Opt_n (power_of_ten 5000); Opt_m "0"%string; Opt_f "cities"%string]
             0 sample_stack
           = inr (Locals true true true (S754_infinity false) 0 4 unit_square)).
  { unfold configure. cbn [parse_options handle_option].
    change (@is_integer sample_utils (power_of_ten 5000))
      with (is_digits (power_of_ten 5000)).
    rewrite Hint, Hinf. reflexivity. }
  eexists. split; [exact Hc|]. split; [reflexivity|].
  apply (@main_never_ends sample_utils sample_randperm_spec _ _ _ _ _ _ Hc).
  left. reflexivity.
Qed.

(** * Further properties of the code *)

(** ** The order of floats *)

Ltac order_cases :=
  repeat match goal with
  | H : context [Pos.compare_cont Eq ?x ?y] |- _ =>
      change (Pos.compare_cont Eq x y) with (Pos.compare x y) in H
  | |- context [Pos.compare_cont Eq ?x ?y] =>
      change (Pos.compare_cont Eq x y) with (Pos.compare x y)
  end;
  repeat match goal with
  | H : context [Z.compare ?x ?y] |- _ => destruct (Z.compare_spec x y)
  | |- context [Z.compare ?x ?y] => destruct (Z.compare_spec x y)
  | H : context [Pos.compare ?x ?y] |- _ => destruct (Pos.compare_spec x y)
  | |- context [Pos.compare ?x ?y] => destruct (Pos.compare_spec x y)
  end;
  simpl in *; try discriminate; try reflexivity; try lia.

Lemma SFcompare_lt_trans a b c :
  SFcompare a b = Some Lt -> SFcompare b c = Some Lt -> SFcompare a c = Some Lt.
Proof.
  destruct a as [sa|sa| |sa ma ea], b as [sb|sb| |sb mb eb],
    c as [sc|sc| |sc mc ec]; simpl; try discriminate;
    repeat match goal with s : bool |- _ => destruct s end;
    simpl; try discriminate; try reflexivity;
    intros H1 H2; order_cases.
Qed.

Lemma SFcompare_antisym a b :
  SFcompare a b = Some Lt -> SFcompare b a = Some Gt.
Proof.
  destruct a as [sa|sa| |sa ma ea], b as [sb|sb| |sb mb eb];
    simpl; try discriminate;
    repeat match goal with s : bool |- _ => destruct s end;
    simpl; try discriminate; try reflexivity;
    intros H1; order_cases.
Qed.

Lemma flt_spec x y : flt x y = true <-> SFcompare x y = Some Lt.
Proof.
  unfold flt, SFltb. destruct (SFcompare x y) as [[]|]; split; congruence.
Qed.

Lemma flt_trans x y z : flt x y = true -> flt y z = true -> flt x z = true.
Proof. rewrite !flt_spec. apply SFcompare_lt_trans. Qed.

Lemma flt_irrefl x : flt x x = false.
Proof.
  unfold flt, SFltb. destruct (is_nan x) eqn:Hx.
  - destruct x; try discriminate. reflexivity.
  - rewrite SFcompare_refl by assumption. reflexivity.
Qed.

Lemma flt_asym x y : flt x y = true -> flt y x = false.
Proof.
  rewrite flt_spec. intros Hxy. unfold flt, SFltb.
  rewrite (SFcompare_antisym x y Hxy). reflexivity.
Qed.

(** A non-negative length below another float is finite. *)
Lemma flt_nonneg_finite l m :
  flt l m = true -> nonneg l = true -> is_finite l = true.
Proof.
  unfold flt, SFltb.
  destruct l as [s|s| |s q e]; simpl; try reflexivity; try discriminate.
  destruct s; [discriminate|]. destruct m as [| [] | |]; discriminate.
Qed.

(** ** The incumbent is the best of the sampled tours *)

Lemma measure_from_inv D path count i l r :
  for_from i count
    (fun i l => a ← path !! i; b ← path !! (i + 1); d ← mread D a b;
                Some (fadd l d)) l = Some r ->
  exists ds, Forall2 (fun k d => edge D path k = Some d) (seq i count) ds /\
             r = foldl fadd l ds.
Proof.
  revert i l. induction count as [|c IH]; intros i l; simpl.
  - intros [= <-]. exists []. split; [constructor|reflexivity].
  - destruct (path !! i) as [a|] eqn:Ha; [|discriminate].
    destruct (path !! (i + 1)) as [b|] eqn:Hb; [|discriminate].
    simpl. destruct (mread D a b) as [d|] eqn:Hd; [|discriminate].
    simpl. intros Hr. destruct (IH _ _ Hr) as (ds & Hds & ->).
    exists (d :: ds). split; [|reflexivity].
    constructor; [|assumption]. unfold edge. rewrite Ha, Hb. exact Hd.
Qed.

Lemma measure_path_nonneg D n path l :
  nonneg_table D -> measure_path D n path = Some l -> nonneg l = true.
Proof.
  intros Hnn Hl. destruct (measure_from_inv D path n 0 fzero l Hl)
    as (ds & Hds & ->).
  apply foldl_fadd_nonneg; [reflexivity|]. eapply edges_nonneg; eauto.
Qed.

Section Incumbent.
Context `{Utils}.

Lemma trial_sample D n s s' :
  trial D n s = Some s' ->
  exists path tour r1 len,
    create_path n (mem s) (rand s) = Some (path, <[path := tour]> (mem s), r1) /\
    mem s !! path = None /\
    sample D n s = Some (tour, len) /\
    measure_path D n tour = Some len /\
    s' = after_trial s path tour len r1.
Proof.
  intros Ht.
  destruct (trial_inv D n s s' Ht) as (path & tour & r1 & len & Hcp & Hf & Hl & ->).
  exists path, tour, r1, len. repeat split; auto.
  unfold sample. rewrite Hcp. simpl. rewrite lookup_insert_eq. simpl.
  rewrite Hl. reflexivity.
Qed.

Lemma incumbent_step D n s s' xs tour len :
  incumbent_of xs s -> trial D n s = Some s' ->
  sample D n s = Some (tour, len) ->
  incumbent_of (xs ++ [(tour, len)]) s'.
Proof.
  intros [Hmin Hinc] Ht Hs.
  destruct (trial_sample D n s s' Ht)
    as (path & tour' & r1 & len' & Hcp & Hf & Hs' & Hl & ->).
  rewrite Hs in Hs'. injection Hs' as <- <-.
  pose proof (fresh_not_live (<[path := tour]> (mem s))) as Hn.
  assert (Hq : fresh (dom (<[path := tour]> (mem s))) <> path).
  { intros E. rewrite E, lookup_insert_eq in Hn. discriminate. }
  unfold after_trial. destruct (flt len (min_len s)) eqn:Hlt; split; simpl.
  - intros t l [Hin|Hin]%elem_of_app.
    + destruct (flt l len) eqn:Hll; [|reflexivity].
      pose proof (Hmin t l Hin) as Hc.
      rewrite (flt_trans _ _ _ Hll Hlt) in Hc. discriminate.
    + apply list_elem_of_singleton in Hin. injection Hin as -> ->.
      apply flt_irrefl.
  - right. exists (fresh (dom (<[path := tour]> (mem s)))), tour.
    repeat split.
    + rewrite lookup_delete_ne, lookup_insert_eq by congruence. reflexivity.
    + apply elem_of_app. right. apply list_elem_of_singleton. reflexivity.
    + destruct Hinc as [(_ & Hmax & _)|(q & t & _ & _ & _ & Hbelow)].
      * rewrite <- Hmax. assumption.
      * eapply flt_trans; eauto.
  - intros t l [Hin|Hin]%elem_of_app; [eauto|].
    apply list_elem_of_singleton in Hin. injection Hin as -> ->. assumption.
  - destruct Hinc as [(Hnone & Hmax & Hall)|(q & t & Hq1 & Hq2 & Hq3 & Hq4)].
    + left. repeat split; auto.
      intros t l [Hin|Hin]%elem_of_app; [eauto|].
      apply list_elem_of_singleton in Hin. injection Hin as -> ->.
      rewrite <- Hmax. assumption.
    + right. exists q, t. repeat split; auto.
      apply elem_of_app. left. assumption.
Qed.

Lemma incumbent_trials k D n s s' xs0 :
  incumbent_of xs0 s -> trials k D n s = Some s' ->
  exists xs, samples k D n s = Some xs /\ length xs = k /\
    incumbent_of (xs0 ++ xs) s' /\
    Forall (fun x => measure_path D n x.1 = Some x.2) xs /\
    (randperm_spec -> 1 <= n -> Forall (fun x => valid_tour n x.1) xs).
Proof.
  revert s xs0. induction k as [|k IH]; intros s xs0 Hinv Hk.
  - injection Hk as <-. exists []. rewrite app_nil_r.
    split; [reflexivity|]. split; [reflexivity|]. split; [assumption|].
    split; [constructor|]. intros _ _. constructor.
  - cbn [trials] in Hk.
    destruct (trial D n s) as [s1|] eqn:Ht; [|discriminate]. simpl in Hk.
    destruct (trial_sample D n s s1 Ht)
      as (path & tour & r1 & len & Hcp & Hf & Hs & Hl & _).
    pose proof (incumbent_step D n s s1 xs0 tour len Hinv Ht Hs) as Hinv1.
    destruct (IH s1 _ Hinv1 Hk) as (xs & Hxs & Hlen & Hinv' & Hm & Hv).
    exists ((tour, len) :: xs). cbn [samples]. rewrite Hs, Ht. simpl.
    rewrite Hxs. simpl. rewrite <- app_assoc in Hinv'.
    split; [reflexivity|]. split; [simpl; lia|]. split; [exact Hinv'|].
    split; [constructor; assumption|].
    intros Hperm Hn. constructor; [|auto]. simpl.
    { destruct (create_path_spec Hperm n (mem s) (rand s) Hn)
        as (tour' & first & Hcp' & _ & _ & Hvalid).
      rewrite Hcp in Hcp'. injection Hcp' as Hp Hh _.
      apply (f_equal (fun m : heap => m !! path)) in Hh.
      rewrite <- Hp, !lookup_insert_eq in Hh. congruence. }
Qed.

Lemma incumbent_init seed : incumbent_of [] (search_init seed).
Proof.
  split; [intros t l Hin; inversion Hin|].
  left. repeat split. intros t l Hin. inversion Hin.
Qed.

Lemma search_loop_Done fuel D n bound s0 s :
  search_loop fuel D n bound s0 = Done s ->
  exists k, trials k D n s0 = Some s /\ ldlt (i s) bound = false.
Proof.
  revert s0. induction fuel as [|fuel IH]; intros s0; [discriminate|].
  cbn [search_loop]. destruct (ldlt (i s0) bound) eqn:Hlt.
  - destruct (trial D n s0) as [s1|] eqn:Ht; [|discriminate].
    intros Hd. destruct (IH s1 Hd) as (k & Hk & Hend).
    exists (S k). cbn [trials]. rewrite Ht. auto.
  - intros [= <-]. exists 0. auto.
Qed.

End Incumbent.

(** X1.  After [k] turns of the loop from its initial state, [min_len]
    is the least of the sampled lengths: every sampled tour was
    measured by [measure_path], none of the [k] lengths is strictly
    less than [min_len], and [min_len] is [FLT_MAX] or one of them. *)
Theorem incumbent_is_best_sample `{Utils} (k : nat) (D : matrix) (n : nat)
    (seed : rng) (s : search rng) :
  trials k D n (search_init seed) = Some s ->
  exists xs, samples k D n (search_init seed) = Some xs /\ length xs = k /\
    (forall t l, (t, l) ∈ xs ->
       measure_path D n t = Some l /\ flt l (min_len s) = false) /\
    (min_len s = FLT_MAX \/ exists t, (t, min_len s) ∈ xs).
Proof.
  intros Hk.
  destruct (incumbent_trials k D n _ s [] (incumbent_init seed) Hk)
    as (xs & Hxs & Hlen & [Hmin Hinc] & Hm & _).
  exists xs. split; [assumption|]. split; [assumption|]. split.
  - intros t l Hin. split; [|eauto].
    apply (proj1 (Forall_forall _ _) Hm (t, l) Hin).
  - destruct Hinc as [(_ & Hmax & _)|(q & t & _ & _ & Hin & _)]; eauto.
Qed.

Lemma incumbent_is_best_sample_witness :
  exists D s xs, distance_matrix unit_square 4 = Some D /\
    @trials sample_utils 3 D 4 (@search_init sample_utils 0) = Some s /\
    @samples sample_utils 3 D 4 (@search_init sample_utils 0) = Some xs /\
    length xs = 3 /\
    (forall t l, (t, l) ∈ xs ->
       measure_path D 4 t = Some l /\ flt l (min_len s) = false) /\
    (min_len s = FLT_MAX \/ exists t, (t, min_len s) ∈ xs).
Proof.
  destruct unit_square_table as (D & HD & Hfull).
  destruct (@trials_defined sample_utils sample_randperm_spec 3 D 4
              (@search_init sample_utils 0)) as [s Hs]; [lia|assumption|].
  destruct (@incumbent_is_best_sample sample_utils 3 D 4 0 s Hs)
    as (xs & Hxs & Hrest).
  exists D, s, xs. auto.
Defined.

(** X2.  At any turn of the loop, [print_repo] would read the
    indeterminate pointer [min_path] (or a dead block) if and only if
    no tour sampled so far has a length strictly below [FLT_MAX]; one
    sampled tour below [FLT_MAX] is enough to make the report defined. *)
Theorem report_undefined_iff `{Utils} (k : nat) (D : matrix) (n : nat)
    (seed : rng) (s : search rng) (xs : list (list nat * f32)) (v : locals) :
  trials k D n (search_init seed) = Some s ->
  samples k D n (search_init seed) = Some xs ->
  report v s = Undefined_behaviour <->
  forall t l, (t, l) ∈ xs -> flt l FLT_MAX = false.
Proof.
  intros Hk Hxs.
  destruct (incumbent_trials k D n _ s [] (incumbent_init seed) Hk)
    as (xs' & Hxs' & _ & [Hmin Hinc] & _).
  assert (xs' = xs) by congruence. subst xs'. simpl in Hinc.
  unfold report.
  destruct Hinc as [(Hnone & _ & Hall)|(q & t & Hq & Hlive & Hin & Hbelow)].
  - rewrite Hnone. split; auto.
  - rewrite Hq, Hlive. split; [discriminate|].
    intros Hall. rewrite (Hall _ _ Hin) in Hbelow. discriminate.
Qed.

Lemma report_undefined_iff_witness :
  exists D s xs, distance_matrix unit_square 4 = Some D /\
    @trials sample_utils 3 D 4 (@search_init sample_utils 0) = Some s /\
    @samples sample_utils 3 D 4 (@search_init sample_utils 0) = Some xs /\
    (@report sample_utils sample_stack s = Undefined_behaviour <->
     forall t l, (t, l) ∈ xs -> flt l FLT_MAX = false).
Proof.
  destruct unit_square_table as (D & HD & Hfull).
  destruct (@trials_defined sample_utils sample_randperm_spec 3 D 4
              (@search_init sample_utils 0)) as [s Hs]; [lia|assumption|].
  destruct (@incumbent_trials sample_utils 3 D 4 _ s []
              (@incumbent_init sample_utils 0) Hs) as (xs & Hxs & _).
  exists D, s, xs. split; [assumption|]. split; [assumption|].
  split; [assumption|].
  exact (@report_undefined_iff sample_utils 3 D 4 0 s xs sample_stack Hs Hxs).
Defined.

(** ** What [main] reports *)

Lemma distance_matrix_cells coord D :
  distance_matrix coord (length coord) = Some D ->
  shape (length coord) D /\ forall a b, mread D a b = dcell coord a b.
Proof.
  intros HD.
  destruct (distance_matrix_written coord) as (D' & HD' & Hshape & Hcells).
  assert (D' = D) by congruence. subst D'. split; [assumption|].
  intros a b.
  destruct (decide (a < length coord)) as [Ha|Ha];
    [destruct (decide (b < length coord)) as [Hb|Hb]|].
  - apply Hcells; auto.
  - unfold mread, dcell. destruct Hshape as [Hlen Hrows].
    destruct (D !! a) as [row|] eqn:Hrow; simpl.
    + assert (length row = length coord)
        by (eapply (proj1 (Forall_lookup _ _) Hrows); eauto).
      rewrite (lookup_ge_None_2 row b) by lia.
      rewrite (lookup_ge_None_2 coord b) by lia.
      destruct (coord !! a); reflexivity.
    + apply lookup_ge_None_1 in Hrow.
      rewrite (lookup_ge_None_2 coord a) by lia. reflexivity.
  - unfold mread, dcell. destruct Hshape as [Hlen Hrows].
    rewrite (lookup_ge_None_2 D a), (lookup_ge_None_2 coord a) by lia.
    reflexivity.
Qed.

(** Whatever the coordinates (infinities and NaNs included), a distance
    is a NaN or has a clear sign bit. *)
Lemma distance_nonneg_unless_nan a b :
  is_nan (distance a b) = false -> nonneg (distance a b) = true.
Proof.
  intros Hn. apply nonneg_has_sign.
  destruct (is_nan (fsub a.1 b.1)) eqn:Hx.
  { assert (E : distance a b = S754_nan).
    { unfold distance. destruct (fsub a.1 b.1); try discriminate.
      reflexivity. }
    rewrite E in Hn. discriminate. }
  destruct (is_nan (fsub a.2 b.2)) eqn:Hy.
  { assert (E : distance a b = S754_nan).
    { unfold distance. destruct (fsub a.2 b.2); try discriminate.
      destruct (pow2 (double_of_float (fsub a.1 b.1))); reflexivity. }
    rewrite E in Hn. discriminate. }
  unfold distance, float_of_double, dsqrt, dadd, pow2, dmul, double_of_float.
  apply convert_sign, SFsqrt_nonneg, SFadd_nonneg;
    apply SFmul_square_nonneg, convert_not_nan; assumption.
Qed.

Lemma fadd_not_nan l d :
  is_nan (fadd l d) = false -> is_nan l = false /\ is_nan d = false.
Proof.
  destruct l, d; intros Hn; try (split; reflexivity); discriminate Hn.
Qed.

Lemma foldl_fadd_nonneg_unless_nan ds l :
  (is_nan l = false -> nonneg l = true) ->
  Forall (fun d => is_nan d = false -> nonneg d = true) ds ->
  is_nan (foldl fadd l ds) = false -> nonneg (foldl fadd l ds) = true.
Proof.
  revert l. induction ds as [|d ds IH]; intros l Hl Hds; simpl; auto.
  inversion Hds; subst. apply IH; auto.
  intros Hn. destruct (fadd_not_nan l d Hn).
  apply nonneg_has_sign, SFadd_nonneg; apply nonneg_has_sign; auto.
Qed.

Lemma measure_path_nonneg_unless_nan coord D n path l :
  distance_matrix coord (length coord) = Some D ->
  measure_path D n path = Some l -> is_nan l = false -> nonneg l = true.
Proof.
  intros HD Hl.
  destruct (distance_matrix_cells coord D HD) as [_ Hcells].
  destruct (measure_from_inv D path n 0 fzero l Hl) as (ds & Hds & ->).
  apply foldl_fadd_nonneg_unless_nan; [reflexivity|].
  clear Hl. induction Hds as [|k d ks ds' Hd _ IH]; constructor; auto.
  unfold edge in Hd.
  destruct (path !! k) as [a|]; [|discriminate].
  destruct (path !! (k + 1)) as [b|]; [|discriminate].
  simpl in Hd. rewrite Hcells in Hd. unfold dcell in Hd.
  destruct (coord !! a) as [ca|]; [|discriminate].
  destruct (coord !! b) as [cb|]; [|discriminate].
  injection Hd as <-. apply distance_nonneg_unless_nan.
Qed.

Lemma flt_not_nan l m : flt l m = true -> is_nan l = false.
Proof. destruct l; try reflexivity. discriminate. Qed.

Section Reported.
Context `{Utils}.

(** The option loop and the checks end [main] with an exit, a return
    or an abort, never with a report. *)
Lemma handle_option_stops fs c v o :
  handle_option fs c v = inl o ->
  (exists msg, o = Exit_failure msg) \/ o = Exit_success \/
  (exists msg, o = Return_1 msg) \/ o = Abort.
Proof.
  destruct c as [a|a|a| | |]; simpl.
  - destruct (is_integer a); simpl; [discriminate|]. intros [= <-]. eauto.
  - destruct (is_positive_number a); simpl;
      [destruct (2 <? atoi a)%Z; [|discriminate]|]; intros [= <-]; eauto.
  - destruct (read_file fs a) as [n array].
    repeat case_decide; [| |discriminate]; intros [= <-]; eauto.
  - intros [= <-]. auto.
  - intros [= <-]. eauto 6.
  - intros [= <-]. auto.
Qed.

Lemma parse_options_stops fs opts v o :
  parse_options fs opts v = inl o ->
  (exists msg, o = Exit_failure msg) \/ o = Exit_success \/
  (exists msg, o = Return_1 msg) \/ o = Abort.
Proof.
  revert v. induction opts as [|c rest IH]; intros v; [discriminate|].
  cbn [parse_options]. destruct (handle_option fs c v) as [o'|v'] eqn:Hc.
  - intros [= <-]. eapply handle_option_stops; eauto.
  - apply IH.
Qed.

Lemma configure_stops fs opts extra stack o :
  configure fs opts extra stack = inl o ->
  (exists msg, o = Exit_failure msg) \/ o = Exit_success \/
  (exists msg, o = Return_1 msg) \/ o = Abort.
Proof.
  unfold configure.
  destruct (parse_options fs opts (initial_locals stack)) as [o'|v] eqn:Hp.
  - intros [= <-]. eapply parse_options_stops; eauto.
  - case_decide; [intros [= <-]; eauto|].
    destruct (overflow_guard (num_iter v)); [intros [= <-]; eauto|].
    destruct (negb (nflag v) || negb (mflag v) || negb (fflag v));
      [intros [= <-]; eauto|discriminate].
Qed.

(** What a report of [main] is made of. *)
Lemma main_Report fuel fs opts extra stack seed best len tr :
  main fuel fs opts extra stack seed = Report best len tr ->
  exists v D s k q,
    configure fs opts extra stack = inr v /\
    1 <= length (coord v) /\
    distance_matrix (coord v) (length (coord v)) = Some D /\
    trials k D (length (coord v)) (search_init seed) = Some s /\
    ldlt (i s) (num_iter v) = false /\
    min_path s = Some q /\ mem s !! q = Some best /\
    min_len s = len /\ num_iter v = tr.
Proof.
  unfold main.
  destruct (configure fs opts extra stack) as [o|v] eqn:Hc.
  { intros ->.
    destruct (configure_stops _ _ _ _ _ Hc) as [[? ?]|[?|[[? ?]|?]]];
      discriminate. }
  destruct (configure_checked _ _ _ _ _ Hc) as (_ & _ & _ & _ & Hn & Hlen).
  unfold run. rewrite <- Hlen.
  destruct (distance_matrix (coord v) (length (coord v))) as [D|] eqn:HD;
    [|discriminate].
  destruct (search_loop fuel D (length (coord v)) (num_iter v)
              (search_init seed)) as [s| |] eqn:Hloop; try discriminate.
  destruct (search_loop_Done _ _ _ _ _ _ Hloop) as (k & Hk & Hend).
  unfold report. destruct (min_path s) as [q|] eqn:Hq; [|discriminate].
  destruct (mem s !! q) as [best'|] eqn:Hbest; [|discriminate].
  intros [= <- <- <-].
  exists v, D, s, k, q. repeat split; auto. lia.
Qed.

End Reported.

(** X3.  Whenever [main] reports, the reported length is exactly what
    [measure_path] returns for the reported tour on the distance matrix
    of the data file, the reported tour is a tour of the file's cities
    ([N + 1] indices below [N]), and the reported number of trials is
    the value parsed from [-n]. *)
Theorem report_is_consistent `{Utils} (randperm_ok : randperm_spec)
    (fuel : nat) (fs : file_system) (opts : list getopt_result) (extra : nat)
    (stack : locals) (seed : rng) (best : list nat) (len : f32)
    (tr : spec_float) :
  main fuel fs opts extra stack seed = Report best len tr ->
  exists v D,
    configure fs opts extra stack = inr v /\
    distance_matrix (coord v) (length (coord v)) = Some D /\
    valid_tour (length (coord v)) best /\
    measure_path D (length (coord v)) best = Some len /\
    tr = num_iter v.
Proof.
  intros Hmain.
  destruct (main_Report _ _ _ _ _ _ _ _ _ Hmain)
    as (v & D & s & k & q & Hc & Hn & HD & Hk & _ & Hq & Hbest & Hlen & Htr).
  destruct (incumbent_trials k D _ _ s [] (incumbent_init seed) Hk)
    as (xs & _ & _ & [_ Hinc] & Hm & Hv).
  destruct Hinc as [(Hnone & _)|(q' & t & Hq' & Hlive & Hin & _)];
    [congruence|].
  assert (q' = q) by congruence. subst q'.
  assert (t = best) by congruence. subst t.
  exists v, D. repeat split; auto.
  - apply (proj1 (Forall_forall _ _) (Hv randperm_ok Hn) _ Hin).
  - apply (proj1 (Forall_forall _ _) (Hv randperm_ok Hn) _ Hin).
  - rewrite <- Hlen. apply (proj1 (Forall_forall _ _) Hm _ Hin).
Qed.

Lemma report_is_consistent_witness :
  exists v D,
    @configure sample_utils sample_fs
      [Opt_n "3"; Opt_m "0"; Opt_f "cities"]%string 0 sample_stack = inr v /\
    distance_matrix (coord v) (length (coord v)) = Some D /\
    valid_tour (length (coord v)) [0; 1; 2; 3; 0] /\
    measure_path D (length (coord v)) [0; 1; 2; 3; 0] = Some (float_of_Z 4) /\
    ld_of_Z 3 = num_iter v.
Proof.
  apply (@report_is_consistent sample_utils sample_randperm_spec 4 sample_fs
           [Opt_n "3"; Opt_m "0"; Opt_f "cities"]%string 0 sample_stack 0).
  vm_compute. reflexivity.
Defined.

(** X4.  Whatever the data file holds, the length that [main] passes
    to [print_repo] when the loop has ended is a finite, non-negative
    float of at most [FLT_MAX]: a length that is infinite or a NaN is
    never retained in [min_len].  It is [FLT_MAX] exactly when no tour
    was retained ([min_path] is still indeterminate). *)
Theorem print_repo_length_finite `{Utils} (fuel : nat) (fs : file_system)
    (opts : list getopt_result) (extra : nat) (stack : locals) (seed : rng)
    (v : locals) (D : matrix) (s : search rng) :
  configure fs opts extra stack = inr v ->
  distance_matrix (coord v) (Z.to_nat (num_cities v)) = Some D ->
  search_loop fuel D (Z.to_nat (num_cities v)) (num_iter v) (search_init seed)
  = Done s ->
  is_finite (min_len s) = true /\ nonneg (min_len s) = true /\
  fle (min_len s) FLT_MAX = true /\
  (min_len s = FLT_MAX <-> min_path s = None).
Proof.
  intros Hc HD Hloop.
  destruct (configure_checked _ _ _ _ _ Hc) as (_ & _ & _ & _ & _ & Hlen).
  rewrite <- Hlen in HD.
  destruct (search_loop_Done _ _ _ _ _ _ Hloop) as (k & Hk & _).
  destruct (incumbent_trials k D _ _ s [] (incumbent_init seed) Hk)
    as (xs & _ & _ & [_ Hinc] & Hm & _).
  destruct Hinc as [(Hnone & Hmax & _)|(q & t & Hq & _ & Hin & Hbelow)].
  - rewrite Hmax. repeat split; auto.
  - pose proof (proj1 (Forall_forall _ _) Hm _ Hin) as Hmeasure.
    simpl in Hmeasure.
    assert (Hnn : nonneg (min_len s) = true).
    { eapply measure_path_nonneg_unless_nan; eauto using flt_not_nan. }
    split; [eapply flt_nonneg_finite; eauto|]. split; [exact Hnn|].
    split; [apply flt_fle; exact Hbelow|].
    split.
    + intros E. rewrite E, flt_irrefl in Hbelow. discriminate.
    + intros E. congruence.
Qed.

Lemma print_repo_length_finite_witness :
  exists v D s,
    @configure sample_utils sample_fs
      [Opt_n "3"; Opt_m "0"; Opt_f "cities"]%string 0 sample_stack = inr v /\
    distance_matrix (coord v) (Z.to_nat (num_cities v)) = Some D /\
    @search_loop sample_utils 4 D (Z.to_nat (num_cities v)) (num_iter v)
      (@search_init sample_utils 0) = Done s /\
    is_finite (min_len s) = true /\ nonneg (min_len s) = true /\
    fle (min_len s) FLT_MAX = true /\
    (min_len s = FLT_MAX <-> min_path s = None).
Proof.
  destruct (@configure sample_utils sample_fs
              [Opt_n "3"; Opt_m "0"; Opt_f "cities"]%string 0 sample_stack)
    as [o|v] eqn:Hc; [vm_compute in Hc; discriminate|].
  assert (Hni : num_iter v = ld_of_Z (Z.of_nat 3))
    by (vm_compute in Hc; injection Hc as <-; reflexivity).
  destruct (@configure_checked sample_utils _ _ _ _ _ Hc)
    as (_ & _ & _ & _ & Hn & Hlen).
  destruct (distance_matrix_written (coord v)) as (D & HD & _).
  pose proof (distance_matrix_full _ _ HD) as Hfull.
  rewrite Hlen in HD, Hfull.
  destruct (@search_loop_count sample_utils sample_randperm_spec D
              (Z.to_nat (num_cities v)) 0 3)
    as (s & _ & _ & Hloop); [lia|assumption|vm_compute; discriminate|].
  specialize (Hloop 4). rewrite <- Hni in Hloop.
  destruct (decide (3 < 4)) as [_|Hno]; [|exfalso; apply Hno; lia].
  exists v, D, s. split; [reflexivity|]. split; [exact HD|].
  split; [exact Hloop|].
  exact (@print_repo_length_finite sample_utils 4 sample_fs _ 0 sample_stack 0
           v D s Hc HD Hloop).
Defined.

(** ** The data file and the options *)

Section CommandLine.
Context `{Utils}.

Lemma count_rows_closed lines acc :
  (0 <= acc)%Z ->
  count_rows lines acc
  = if forallb is_coordinate lines then (acc + Z.of_nat (length lines))%Z
    else (-1)%Z.
Proof.
  revert acc. induction lines as [|line rest IH]; intros acc Hacc; simpl.
  - lia.
  - destruct (is_coordinate line); simpl; [|reflexivity].
    rewrite IH by lia. destruct (forallb is_coordinate rest); lia.
Qed.

Lemma read_file_closed (fs : file_system) (file : string) :
  read_file fs file
  = match fs file with
    | None => (0%Z, None)
    | Some lines =>
        if forallb is_coordinate lines
        then (Z.of_nat (length lines), Some (scan_coord <$> lines))
        else ((-1)%Z, None)
    end.
Proof.
  unfold read_file. destruct (fs file) as [lines|]; [|reflexivity].
  rewrite count_rows_closed by lia.
  destruct (forallb is_coordinate lines); case_decide; try reflexivity; lia.
Qed.


Lemma handle_option_inr fs c v v' :
  handle_option fs c v = inr v' ->
  option_ok fs c /\
  match c with
  | Opt_n a => v' = Locals true (mflag v) (fflag v) (strtold a) (mode v)
                      (num_cities v) (coord v)
  | Opt_m a => v' = Locals (nflag v) true (fflag v) (num_iter v) (atoi a)
                      (num_cities v) (coord v)
  | Opt_f a => exists lines, fs a = Some lines /\
      v' = Locals (nflag v) (mflag v) true (num_iter v) (mode v)
             (Z.of_nat (length lines)) (scan_coord <$> lines)
  | _ => False
  end.
Proof.
  destruct c as [a|a|a| | |]; simpl; try discriminate.
  - destruct (is_integer a); simpl; [|discriminate]. intros [= <-]. auto.
  - destruct (is_positive_number a); simpl; [|discriminate].
    destruct (2 <? atoi a)%Z eqn:Hm; [discriminate|].
    apply Z.ltb_ge in Hm. intros [= <-]. auto.
  - rewrite read_file_closed. destruct (fs a) as [lines|]; [|discriminate].
    destruct (forallb is_coordinate lines) eqn:Hall; [|discriminate].
    repeat case_decide; try discriminate. intros [= <-]. simpl.
    split; exists lines; repeat split; auto.
    intros ->. simpl in *. lia.
Qed.

Lemma handle_option_ok fs c v :
  option_ok fs c -> exists v', handle_option fs c v = inr v'.
Proof.
  destruct c as [a|a|a| | |]; simpl; try contradiction.
  - intros ->. simpl. eauto.
  - intros [-> Hm]. simpl. apply Z.ltb_ge in Hm. rewrite Hm. eauto.
  - intros (lines & Hf & Hne & Hall). rewrite read_file_closed, Hf, Hall.
    destruct lines as [|l ls]; [contradiction|].
    repeat case_decide; try (simpl length in *; lia). eauto.
Qed.

Lemma parse_options_ok fs opts v :
  Forall (option_ok fs) opts -> exists v', parse_options fs opts v = inr v'.
Proof.
  intros Hok. revert v. induction Hok as [|c rest Hc _ IH]; intros v.
  - simpl. eauto.
  - cbn [parse_options]. destruct (handle_option_ok fs c v Hc) as [v1 ->].
    apply IH.
Qed.

Lemma parse_options_inr fs opts v v' :
  parse_options fs opts v = inr v' -> Forall (option_ok fs) opts.
Proof.
  revert v. induction opts as [|c rest IH]; intros v; [constructor|].
  cbn [parse_options]. destruct (handle_option fs c v) as [o|v1] eqn:Hc;
    [discriminate|].
  intros Hrest. constructor; [|eauto].
  apply (handle_option_inr fs c v v1 Hc).
Qed.

Lemma parse_options_app fs before after v :
  parse_options fs (before ++ after) v
  = match parse_options fs before v with
    | inl o => inl o
    | inr v1 => parse_options fs after v1
    end.
Proof.
  revert v. induction before as [|c rest IH]; intros v; [reflexivity|].
  cbn [app parse_options]. destruct (handle_option fs c v); auto.
Qed.

End CommandLine.

Section Accepted.
Context `{Utils}.

(** The locals after the option loop: each group is what the last
    option of its kind stored, or what it was before the loop. *)
Lemma parse_options_last fs opts v v' :
  parse_options fs opts v = inr v' ->
  (nflag v', num_iter v')
  = match last_n opts with
    | Some a => (true, strtold a)
    | None => (nflag v, num_iter v)
    end /\
  (mflag v', mode v')
  = match last_m opts with
    | Some a => (true, atoi a)
    | None => (mflag v, mode v)
    end /\
  (fflag v', num_cities v', coord v')
  = match last_f opts with
    | Some a => (true, Z.of_nat (length (default [] (fs a))),
                 scan_coord <$> default [] (fs a))
    | None => (fflag v, num_cities v, coord v)
    end.
Proof.
  revert v. induction opts as [|c rest IH]; intros v.
  - intros [= <-]. auto.
  - cbn [parse_options]. destruct (handle_option fs c v) as [o|v1] eqn:Hc;
      [discriminate|].
    intros Hrest. destruct (IH v1 Hrest) as (Hn & Hm & Hf).
    destruct (handle_option_inr fs c v v1 Hc) as [_ Hv1].
    cbn [last_n last_m last_f]. rewrite Hn, Hm, Hf.
    destruct c as [a|a|a| | |]; try contradiction.
    + subst v1. destruct (last_n rest), (last_m rest), (last_f rest); auto.
    + subst v1. destruct (last_n rest), (last_m rest), (last_f rest); auto.
    + destruct Hv1 as (lines & Hlines & ->).
      destruct (last_n rest), (last_m rest), (last_f rest);
        try rewrite Hlines; auto.
Qed.

Lemma last_n_elem opts a : last_n opts = Some a -> Opt_n a ∈ opts.
Proof.
  induction opts as [|c rest IH]; [discriminate|]. cbn [last_n].
  destruct (last_n rest) as [b|].
  - intros [= ->]. right. auto.
  - destruct c; try discriminate. intros [= ->]. left.
Qed.



Lemma configure_inr fs opts extra stack v :
  configure fs opts extra stack = inr v ->
  parse_options fs opts (initial_locals stack) = inr v /\ extra = 0 /\
  overflow_guard (num_iter v) = false /\
  nflag v = true /\ mflag v = true /\ fflag v = true.
Proof.
  unfold configure.
  destruct (parse_options fs opts (initial_locals stack)) as [o|v1];
    [discriminate|].
  case_decide; [discriminate|].
  destruct (overflow_guard (num_iter v1)) eqn:Hg; [discriminate|].
  destruct (nflag v1) eqn:Hn, (mflag v1) eqn:Hm, (fflag v1) eqn:Hf;
    try discriminate.
  intros [= <-]. repeat split; auto. lia.
Qed.

Lemma handle_option_not_ok fs c :
  ~ option_ok fs c -> exists o, forall v, handle_option fs c v = inl o.
Proof.
  destruct c as [a|a|a| | |]; simpl; intros Hno; eauto.
  - destruct (is_integer a); [contradiction Hno; reflexivity|]. simpl. eauto.
  - destruct (is_positive_number a); simpl; [|eauto].
    destruct (2 <? atoi a)%Z eqn:Hm; [eauto|].
    apply Z.ltb_ge in Hm. contradiction Hno. auto.
  - rewrite read_file_closed. destruct (fs a) as [lines|].
    + destruct (forallb is_coordinate lines) eqn:Hall.
      * destruct lines as [|l ls].
        -- simpl. repeat case_decide; try lia; eauto.
        -- contradiction Hno. exists (l :: ls). auto.
      * repeat case_decide; try lia; eauto.
    + repeat case_decide; try lia; eauto.
Qed.

End Accepted.

(** X6.  [main] gets past its checks, to [srand] and the trials, if
    and only if no argument is left after the options, every option is
    an accepted [-n], [-m] or [-f], each of the three occurs, and the
    count of the last [-n] passes the guard [num_iter + 1 < num_iter].
    So [-n] is mandatory, and one [-h], unknown option or rejected
    argument anywhere on the command line keeps [main] from the trials. *)
Theorem trials_iff_options_accepted `{Utils} (fs : file_system)
    (opts : list getopt_result) (extra : nat) (stack : locals) :
  (exists v, configure fs opts extra stack = inr v) <->
  extra = 0 /\ Forall (option_ok fs) opts /\
  is_Some (last_m opts) /\ is_Some (last_f opts) /\
  exists a, last_n opts = Some a /\ overflow_guard (strtold a) = false.
Proof.
  split.
  - intros [v Hc].
    destruct (configure_inr fs opts extra stack v Hc)
      as (Hp & Hextra & Hguard & Hn & Hm & Hf).
    destruct (parse_options_last fs opts _ v Hp) as (En & Em & Ef).
    split; [assumption|]. split; [eapply parse_options_inr; eauto|].
    simpl in En, Em, Ef. rewrite Hn in En. rewrite Hm in Em. rewrite Hf in Ef.
    destruct (last_m opts); [|discriminate].
    destruct (last_f opts); [|discriminate].
    destruct (last_n opts) as [a|]; [|discriminate].
    injection En as En. rewrite En in Hguard. eauto.
  - intros (-> & Hok & [am Hm] & [af Hf] & a & Hn & Hguard).
    destruct (parse_options_ok fs opts (initial_locals stack) Hok) as [v Hp].
    destruct (parse_options_last fs opts _ v Hp) as (En & Em & Ef).
    rewrite Hn in En. rewrite Hm in Em. rewrite Hf in Ef.
    injection En as En1 En2. injection Em as Em1 _. injection Ef as Ef1 _ _.
    exists v. unfold configure. rewrite Hp.
    case_decide; [lia|]. rewrite En2, Hguard, En1, Em1, Ef1. reflexivity.
Qed.



(** X8.  The first option that is not accepted decides how [main]
    ends: after accepted options, an option that is not accepted ends
    [main] with the outcome of its case of the [switch], which does not
    depend on the locals, and nothing that follows on the command line
    (options, extra arguments) is looked at. *)
Theorem first_rejected_option_decides `{Utils} (fs : file_system)
    (before : list getopt_result) (c : getopt_result) :
  Forall (option_ok fs) before -> ~ option_ok fs c ->
  exists o,
    (forall v, handle_option fs c v = inl o) /\
    forall after extra stack fuel seed,
      main fuel fs (before ++ c :: after) extra stack seed = o.
Proof.
  intros Hok Hno. destruct (handle_option_not_ok fs c Hno) as [o Ho].
  exists o. split; [exact Ho|]. intros after extra stack fuel seed.
  destruct (parse_options_ok fs before (initial_locals stack) Hok) as [v1 Hv1].
  unfold main, configure. rewrite parse_options_app, Hv1.
  cbn [parse_options]. rewrite Ho. reflexivity.
Qed.

Lemma first_rejected_option_decides_witness :
  exists o,
    (forall v, @handle_option sample_utils sample_fs Opt_h v = inl o) /\
    forall after extra stack fuel seed,
      @main sample_utils fuel sample_fs
        ([Opt_n "3"; Opt_f "cities"]%string ++ Opt_h :: after)
        extra stack seed = o.
Proof.
  apply (@first_rejected_option_decides sample_utils sample_fs
           [Opt_n "3"; Opt_f "cities"]%string Opt_h).
  - repeat constructor. exists ["0 0"; "1 0"; "1 1"; "0 1"]%string.
    repeat split. discriminate.
  - simpl. tauto.
Defined.

(** ** The bounds of [distance_matrix] and [measure_path] *)

Lemma for_from_ext {S : Type} (f g : nat -> S -> option S) count i s :
  (forall k t, i <= k < i + count -> f k t = g k t) ->
  for_from i count f s = for_from i count g s.
Proof.
  revert i s. induction count as [|c IH]; intros i s Hfg; [reflexivity|].
  simpl. rewrite Hfg by lia. destruct (g i s) as [s'|]; [|reflexivity].
  simpl. apply IH. intros k t Hk. apply Hfg. lia.
Qed.

Lemma for_from_fails {S : Type} (f : nat -> S -> option S) count i k s :
  i <= k < i + count -> (forall t, f k t = None) ->
  for_from i count f s = None.
Proof.
  revert i s. induction count as [|c IH]; intros i s Hk Hf; [lia|].
  simpl. destruct (decide (k = i)) as [->|Hne].
  - rewrite Hf. reflexivity.
  - destruct (f i s) as [s'|]; [|reflexivity]. simpl. apply IH; [lia|auto].
Qed.

Lemma for_from_S {S : Type} (f : nat -> S -> option S) count i s :
  for_from i (Datatypes.S count) f s
  = s' ← f i s; for_from (Datatypes.S i) count f s'.
Proof. reflexivity. Qed.

Lemma for_from_snoc {S : Type} (f : nat -> S -> option S) count i s :
  for_from i (Datatypes.S count) f s
  = s' ← for_from i count f s; f (i + count) s'.
Proof.
  revert i s. induction count as [|c IH]; intros i s.
  - simpl. rewrite Nat.add_0_r. destruct (f i s); reflexivity.
  - rewrite (for_from_S f (Datatypes.S c) i s), (for_from_S f c i s).
    destruct (f i s) as [s1|]; [|reflexivity].
    cbn [mbind option_bind]. rewrite IH.
    replace (Datatypes.S i + c) with (i + Datatypes.S c) by lia.
    reflexivity.
Qed.

Lemma distance_matrix_take coord n :
  distance_matrix coord n = distance_matrix (take n coord) n.
Proof.
  unfold distance_matrix, for_loop.
  apply for_from_ext. intros i D Hi.
  apply for_from_ext. intros j D' Hj.
  rewrite !lookup_take_lt by lia. reflexivity.
Qed.

(** X9.  [distance_matrix] is defined exactly when [coord] has at
    least [num_city] rows (with fewer it reads a row that does not
    exist); it then returns [num_city] rows of [num_city] cells, every
    cell [D[i][j]] holding the distance of the cities [i] and [j], for
    any coordinates, infinities and NaNs included. *)
Theorem distance_matrix_bounds (coord : list (f32 * f32)) (num_city : nat) :
  (num_city <= length coord ->
   exists D, distance_matrix coord num_city = Some D /\ shape num_city D /\
     forall i j a b, i < num_city -> j < num_city ->
       coord !! i = Some a -> coord !! j = Some b ->
       mread D i j = Some (distance a b)) /\
  (length coord < num_city -> distance_matrix coord num_city = None).
Proof.
  split.
  - intros Hn. rewrite distance_matrix_take.
    assert (Hlen : length (take num_city coord) = num_city)
      by (rewrite length_take; lia).
    destruct (distance_matrix_written (take num_city coord))
      as (D & HD & Hshape & Hcells).
    rewrite Hlen in HD, Hshape, Hcells.
    exists D. split; [assumption|]. split; [assumption|].
    intros i j a b Hi Hj Ha Hb. rewrite Hcells by auto. unfold dcell.
    rewrite !lookup_take_lt, Ha, Hb by lia. reflexivity.
  - intros Hn. unfold distance_matrix, for_loop.
    apply (for_from_fails _ num_city 0 0); [lia|]. intros D.
    apply (for_from_fails _ num_city 0 (length coord)); [lia|]. intros D'.
    rewrite (lookup_ge_None_2 coord (length coord)) by lia.
    destruct (coord !! 0); reflexivity.
Qed.

Lemma distance_matrix_bounds_witness :
  (exists D, distance_matrix unit_square 3 = Some D /\ shape 3 D /\
     forall i j a b, i < 3 -> j < 3 ->
       unit_square !! i = Some a -> unit_square !! j = Some b ->
       mread D i j = Some (distance a b)) /\
  distance_matrix unit_square 5 = None.
Proof.
  split.
  - apply (proj1 (distance_matrix_bounds unit_square 3)). simpl. lia.
  - apply (proj2 (distance_matrix_bounds unit_square 5)). simpl. lia.
Defined.

(** X10.  [distance_matrix] reads the first [num_city] rows of [coord]
    only: the rows beyond them do not change its result. *)
Theorem distance_matrix_prefix (coord more : list (f32 * f32)) :
  distance_matrix (coord ++ more) (length coord)
  = distance_matrix coord (length coord).
Proof.
  rewrite distance_matrix_take, take_app_length. reflexivity.
Qed.

Lemma edges_of_defined D path js :
  (forall k, k ∈ js -> is_Some (edge D path k)) ->
  exists ds, Forall2 (fun k d => edge D path k = Some d) js ds.
Proof.
  induction js as [|k js IH]; intros Hall.
  - exists []. constructor.
  - destruct (Hall k) as [d Hd]; [left|].
    destruct IH as [ds Hds]; [intros k' Hk'; apply Hall; right; exact Hk'|].
    exists (d :: ds). constructor; assumption.
Qed.

(** X11.  [measure_path] is defined exactly when each of the
    [num_city] edges can be read: [path[i]] and [path[i + 1]] exist and
    the cell [distance[path[i]][path[i + 1]]] is an initialised cell of
    the table, for every [i < num_city].  One unreadable edge anywhere
    makes the whole call undefined. *)
Theorem measure_path_defined_iff (D : matrix) (num_city : nat)
    (path : list nat) :
  is_Some (measure_path D num_city path) <->
  forall k, k < num_city -> is_Some (edge D path k).
Proof.
  split.
  - intros [l Hl] k Hk.
    destruct (measure_from_inv D path num_city 0 fzero l Hl) as (ds & Hds & _).
    destruct (Forall2_lookup_l _ _ _ k k Hds) as (d & _ & Hd);
      [apply lookup_seq; lia|].
    exists d. exact Hd.
  - intros Hall.
    destruct (edges_of_defined D path (seq 0 num_city)) as [ds Hds].
    { intros k Hk. apply Hall. apply elem_of_seq in Hk. lia. }
    exists (foldl fadd fzero ds). apply (measure_from D path num_city 0 _ ds Hds).
Qed.

(** X12.  The length over [n + 1] edges is the length over the first
    [n] edges plus the edge [n], added last (one more rounded [float]
    addition); it is undefined when either of them is. *)
Theorem measure_path_extend (D : matrix) (n : nat) (path : list nat) :
  measure_path D (S n) path
  = l ← measure_path D n path; d ← edge D path n; Some (fadd l d).
Proof.
  unfold measure_path, for_loop. rewrite for_from_snoc. simpl.
  match goal with |- (mbind _ ?x) = _ => destruct x as [l|] end;
    [|reflexivity].
  simpl. unfold edge.
  destruct (path !! n); [|reflexivity]. simpl.
  destruct (path !! (n + 1)); [|reflexivity]. simpl.
  destruct (mread D _ _); reflexivity.
Qed.

(** X13.  [measure_path] reads [path[0..num_city]] only: entries of the
    array beyond index [num_city] do not change its result. *)
Theorem measure_path_prefix (D : matrix) (num_city : nat)
    (path : list nat) :
  measure_path D num_city (take (S num_city) path)
  = measure_path D num_city path.
Proof.
  unfold measure_path, for_loop. apply for_from_ext. intros k l Hk.
  rewrite !lookup_take_lt by lia. reflexivity.
Qed.

(** ** The block of [create_path] *)

(** X15.  When [randperm] fills the array with a permutation of
    [0..num_city-1], [create_path] is defined exactly for
    [num_city >= 1]: with no city, [coord[0]] is read from a block in
    which nothing was written. *)
Theorem create_path_defined_iff `{Utils} (randperm_ok : randperm_spec)
    (n : nat) (h : heap) (r : rng) :
  is_Some (create_path n h r) <-> 1 <= n.
Proof.
  split.
  - intros [[[p h'] r'] Hcp]. unfold create_path in Hcp.
    pose proof (randperm_ok n r) as Hperm.
    destruct (randperm n r) as [perm r1]. simpl in *.
    destruct (perm !! 0) as [first|] eqn:Hfirst; [|discriminate].
    apply lookup_lt_Some in Hfirst.
    apply Permutation_length in Hperm. rewrite length_seq in Hperm. lia.
  - intros Hn.
    destruct (create_path_spec randperm_ok n h r Hn)
      as (tour & first & -> & _). eauto.
Qed.

Lemma create_path_defined_iff_witness :
  (is_Some (@create_path sample_utils 0 ∅ 0) <-> 1 <= 0) /\
  (is_Some (@create_path sample_utils 4 ∅ 0) <-> 1 <= 4).
Proof.
  split; apply (@create_path_defined_iff sample_utils sample_randperm_spec).
Defined.

(** ** The guard [num_iter + 1 < num_iter] *)

Lemma shr_1_div2 mrs : (0 <= shr_m mrs)%Z -> shr_m (shr_1 mrs) = (shr_m mrs / 2)%Z.
Proof.
  destruct mrs as [m r t]. cbn [shr_m shr_1]. intros Hm.
  destruct m as [|[q|q|]|q]; try lia; cbn [shr_m].
  - reflexivity.
  - apply (Z.div_unique _ 2 _ 1); lia.
  - apply (Z.div_unique _ 2 _ 0); lia.
  - reflexivity.
Qed.

Lemma iter_shr_1_div n mrs :
  (0 <= shr_m mrs)%Z ->
  shr_m (Pos.iter shr_1 mrs n) = (shr_m mrs / 2 ^ Z.pos n)%Z.
Proof.
  intros Hm. induction n as [|n IH] using Pos.peano_ind.
  - simpl Pos.iter. rewrite shr_1_div2 by assumption. reflexivity.
  - rewrite Pos.iter_succ, shr_1_div2.
    + rewrite IH, Pos2Z.inj_succ, Z.pow_succ_r by lia.
      rewrite Z.div_div by (try apply Z.pow_pos_nonneg; lia).
      f_equal. lia.
    + rewrite IH. apply Z.div_pos; [assumption|apply Z.pow_pos_nonneg; lia].
Qed.

Lemma digits2_unique p k :
  (2 ^ (k - 1) <= Z.pos p < 2 ^ k)%Z -> Z.pos (digits2_pos p) = k.
Proof.
  intros [Hlo Hhi]. pose proof (digits2_bounds p) as [Hlo' Hhi'].
  assert (Hk : (0 < k)%Z).
  { destruct (Z.lt_ge_cases 0 k) as [|Hk]; [assumption|exfalso].
    destruct (Z.eq_dec k 0%Z) as [->|]; [simpl in Hhi; lia|].
    rewrite (Z.pow_neg_r 2 k) in Hhi by lia. lia. }
  destruct (Z.lt_trichotomy (Z.pos (digits2_pos p)) k) as [Hlt|[E|Hgt]];
    [exfalso|assumption|exfalso].
  - assert (2 ^ Z.pos (digits2_pos p) <= 2 ^ (k - 1))%Z
      by (apply Z.pow_le_mono_r; lia). lia.
  - assert (2 ^ k <= 2 ^ (Z.pos (digits2_pos p) - 1))%Z
      by (apply Z.pow_le_mono_r; lia). lia.
Qed.

Lemma binary_round_aux_ld (P : spec_float -> Prop) p e :
  (64 <= Z.pos (digits2_pos p))%Z -> (-16381 <= Z.pos (digits2_pos p) + e)%Z ->
  P (S754_infinity false) ->
  (forall m' e',
     Z.pos (digits2_pos m') = 64%Z -> (e' <= 16320)%Z ->
     ((e' = e + (Z.pos (digits2_pos p) - 64) /\
       Z.pos p / 2 ^ (Z.pos (digits2_pos p) - 64) <= Z.pos m'
         <= Z.pos p / 2 ^ (Z.pos (digits2_pos p) - 64) + 1) \/
      e' = e + (Z.pos (digits2_pos p) - 64) + 1)%Z ->
     P (S754_finite false m' e')) ->
  P (binary_round_aux 64 16384 false (Z.pos p) e loc_Exact).
Proof.
  intros Hd He Hinf Hfin. unfold binary_round_aux, shr_fexp at 1, Zdigits2, shr.
  rewrite fexp_ld by lia.
  destruct (Z.pos (digits2_pos p) + e - 64 - e)%Z as [|n|n] eqn:Hn; try lia.
  - cbn [shr_record_of_loc shr_m loc_of_shr_record round_nearest_even].
    unfold shr_fexp, Zdigits2, shr. rewrite fexp_ld by lia. rewrite Hn.
    cbn [shr_record_of_loc shr_m].
    destruct (Z.leb_spec e (16384 - 64)); [|exact Hinf].
    apply Hfin; [lia|lia|]. left.
    replace (Z.pos (digits2_pos p) - 64)%Z with 0%Z by lia.
    rewrite Z.pow_0_r, Z.div_1_r. lia.
  - rewrite iter_pos_iter. cbn [shr_record_of_loc].
    destruct (iter_shr_1_pos n (Build_shr_record (Z.pos p) false false) p)
      as (q & Hq & Hdq); [reflexivity|lia|].
    pose proof (iter_shr_1_div n (Build_shr_record (Z.pos p) false false))
      as Hdiv.
    cbn [shr_m] in Hdiv. rewrite Hq in Hdiv. specialize (Hdiv ltac:(lia)).
    rewrite Hq.
    set (l := loc_of_shr_record _). clearbody l.
    assert (Hr : exists q', round_nearest_even (Z.pos q) l = Z.pos q' /\
              (Z.pos q <= Z.pos q' <= Z.pos q + 1)%Z /\
              (64 <= Z.pos (digits2_pos q') <= 65)%Z).
    { pose proof (digits2_succ_le q) as Hs.
      destruct l as [|[]]; cbn [round_nearest_even];
        try (exists q; split; [reflexivity|lia]);
        try (exists (q + 1)%positive; split; [reflexivity|lia]).
      destruct (Z.even (Z.pos q));
        [exists q|exists (q + 1)%positive]; split; try reflexivity; lia. }
    destruct Hr as (q' & -> & Hq' & Hdq').
    unfold shr_fexp, Zdigits2, shr. rewrite fexp_ld by lia.
    cbn [shr_record_of_loc].
    destruct (Z.pos (digits2_pos q') + (e + Z.pos n) - 64 - (e + Z.pos n))%Z
      as [|k|k] eqn:Hk; try lia.
    + cbn [shr_m]. destruct (Z.leb_spec (e + Z.pos n) (16384 - 64));
        [|exact Hinf].
      apply Hfin; [lia|lia|]. left.
      replace (Z.pos (digits2_pos p) - 64)%Z with (Z.pos n) by lia. lia.
    + rewrite iter_pos_iter.
      destruct (iter_shr_1_pos k (Build_shr_record (Z.pos q') false false) q')
        as (q'' & Hq'' & Hdq''); [reflexivity|lia|].
      rewrite Hq''.
      destruct (Z.leb_spec (e + Z.pos n + Z.pos k) (16384 - 64));
        [|exact Hinf].
      apply Hfin; [lia|lia|]. right. lia.
Qed.

(** The long double nearest to an integer of 64 bits or more: an
    infinity, or a number with a significand of 64 bits and a
    non-negative exponent. *)
Lemma ld_of_Z_canonical p :
  (64 <= Z.pos (digits2_pos p))%Z ->
  ld_of_Z (Z.pos p) = S754_infinity false \/
  exists m e, ld_of_Z (Z.pos p) = S754_finite false m e /\
    Z.pos (digits2_pos m) = 64%Z /\
    (Z.pos (digits2_pos p) - 64 <= e <= 16320)%Z.
Proof.
  intros Hd. unfold ld_of_Z, binary_normalize, binary_round, shl_align.
  rewrite Z.add_0_r, fexp_ld by lia.
  assert (Hr : binary_round_aux 64 16384 false (Z.pos p) 0 loc_Exact
               = S754_infinity false \/
    exists m e, binary_round_aux 64 16384 false (Z.pos p) 0 loc_Exact
                = S754_finite false m e /\
      Z.pos (digits2_pos m) = 64%Z /\
      (Z.pos (digits2_pos p) - 64 <= e <= 16320)%Z).
  { apply (binary_round_aux_ld (fun R => R = S754_infinity false \/
      exists m e, R = S754_finite false m e /\
        Z.pos (digits2_pos m) = 64%Z /\
        (Z.pos (digits2_pos p) - 64 <= e <= 16320)%Z)); try lia; [auto|].
    intros m' e' Hm He Hcase. right. exists m', e'.
    split; [reflexivity|]. split; [assumption|]. lia. }
  destruct (Z.pos (digits2_pos p) - 64 - 0)%Z as [|k|k] eqn:Hk; try lia;
    exact Hr.
Qed.

Lemma ld_add_one_ge m e :
  Z.pos (digits2_pos m) = 64%Z -> (1 <= e <= 16320)%Z ->
  ldlt (ldadd (S754_finite false m e) ld_one) (S754_finite false m e) = false.
Proof.
  intros Hm He. rewrite ld_one_eq. unfold ldadd, SFadd.
  rewrite Z.min_r by lia. unfold shl_align. cbn [cond_Zopp].
  replace (-63 - -63)%Z with 0%Z by lia.
  destruct (-63 - e)%Z as [|d|d] eqn:Hd; try lia.
  cbn [fst]. rewrite <- Pos2Z.inj_add.
  set (M := (Pos.iter xO m d + 9223372036854775808)%positive).
  assert (HM : Z.pos M = (Z.pos m * 2 ^ Z.pos d + 2 ^ 63)%Z).
  { unfold M. rewrite Pos2Z.inj_add, Zpos_iter_xO. reflexivity. }
  pose proof (digits2_bounds m) as Hbm. rewrite Hm in Hbm.
  assert (HA : (2 ^ 63 < 2 ^ Z.pos d)%Z) by (apply Z.pow_lt_mono_r; lia).
  assert (HdM : Z.pos (digits2_pos M) = (64 + Z.pos d)%Z).
  { apply digits2_unique. rewrite HM.
    replace (64 + Z.pos d - 1)%Z with (63 + Z.pos d)%Z by lia.
    rewrite !Z.pow_add_r by lia.
    set (A := (2 ^ Z.pos d)%Z) in *. clearbody A.
    change (2 ^ (64 - 1))%Z with 9223372036854775808%Z in Hbm.
    change (2 ^ 64)%Z with 18446744073709551616%Z in *.
    change (2 ^ 63)%Z with 9223372036854775808%Z in *. nia. }
  assert (Hdiv : (Z.pos M / 2 ^ Z.pos d = Z.pos m)%Z).
  { symmetry. apply (Z.div_unique _ _ _ (2 ^ 63)); [lia|]. rewrite HM. lia. }
  unfold binary_normalize, binary_round, shl_align.
  rewrite HdM, fexp_ld by lia.
  destruct (64 + Z.pos d + -63 - 64 - -63)%Z as [|k|k] eqn:Hk; try lia.
  apply (binary_round_aux_ld
           (fun R => ldlt R (S754_finite false m e) = false)); try lia.
  - reflexivity.
  - rewrite HdM. replace (64 + Z.pos d - 64)%Z with (Z.pos d) by lia.
    rewrite Hdiv. intros m' e' Hm' He' Hcase.
    unfold ldlt, SFltb, SFcompare.
    destruct Hcase as [[-> Hle]| ->].
    + replace (-63 + Z.pos d)%Z with e by lia. rewrite Z.compare_refl.
      change (Pos.compare_cont Eq m' m) with (Pos.compare m' m).
      destruct (Pos.compare_spec m' m); try reflexivity. lia.
    + replace (-63 + Z.pos d + 1)%Z with (e + 1)%Z by lia.
      destruct (Z.compare_spec (e + 1) e); try reflexivity; lia.
Qed.

Lemma ldlt_asym x y : ldlt x y = true -> ldlt y x = false.
Proof. apply flt_asym. Qed.

Lemma overflow_guard_integer T :
  (0 <= T)%Z -> overflow_guard (ld_of_Z T) = false.
Proof.
  intros HT. unfold overflow_guard.
  destruct (Z.lt_ge_cases T (2 ^ 64)) as [Hlt|Hge].
  - rewrite ld_succ by lia. apply ldlt_asym. apply ld_lt; lia.
  - destruct T as [|p|p]; try lia.
    assert (Hd : (65 <= Z.pos (digits2_pos p))%Z).
    { destruct (Z.lt_ge_cases (Z.pos (digits2_pos p)) 65) as [Hs|]; [|lia].
      pose proof (digits2_bounds p) as [_ Hp].
      assert (2 ^ Z.pos (digits2_pos p) <= 2 ^ 64)%Z
        by (apply Z.pow_le_mono_r; lia).
      lia. }
    destruct (ld_of_Z_canonical p) as [->|(m & e & -> & Hm & He)]; [lia| |].
    + reflexivity.
    + apply ld_add_one_ge; [assumption|lia].
Qed.

(** X16.  The guard [num_iter + 1 < num_iter] is false for every
    non-negative integer number of trials, however large: below [2^64]
    the sum is exact and greater, from [2^64] on it rounds to
    [num_iter] or to the next long double, and from [2^16384] on both
    sides are [+infinity].  The guard rejects no such count. *)
Theorem overflow_guard_never_fires (T : Z) :
  (0 <= T)%Z -> overflow_guard (ld_of_Z T) = false.
Proof.
  intros HT. unfold overflow_guard.
  destruct (Z.lt_ge_cases T (2 ^ 64)) as [Hlt|Hge].
  - rewrite ld_succ by lia. apply ldlt_asym. apply ld_lt; lia.
  - destruct T as [|p|p]; try lia.
    assert (Hd : (65 <= Z.pos (digits2_pos p))%Z).
    { destruct (Z.lt_ge_cases (Z.pos (digits2_pos p)) 65) as [Hs|]; [|lia].
      pose proof (digits2_bounds p) as [_ Hp].
      assert (2 ^ Z.pos (digits2_pos p) <= 2 ^ 64)%Z
        by (apply Z.pow_le_mono_r; lia).
      lia. }
    destruct (ld_of_Z_canonical p) as [->|(m & e & -> & Hm & He)]; [lia| |].
    + reflexivity.
    + apply ld_add_one_ge; [assumption|lia].
Qed.

Lemma overflow_guard_never_fires_witness :
  overflow_guard (ld_of_Z (2 ^ 64 + 1)) = false.
Proof. apply overflow_guard_never_fires. lia. Defined.

Lemma parse_digits_nonneg s acc v :
  parse_digits s acc = Some v -> (0 <= acc)%Z -> (0 <= v)%Z.
Proof.
  revert acc. induction s as [|c s IH]; intros acc; simpl.
  - intros [= <-]. auto.
  - unfold digit_of.
    destruct ((48 <=? Z.of_nat (nat_of_ascii c)) &&
              (Z.of_nat (nat_of_ascii c) <=? 57))%Z eqn:Hc; [|discriminate].
    simpl. intros Hv Hacc. apply (IH _ Hv).
    apply andb_true_iff in Hc. destruct Hc as [Hlo _].
    apply Z.leb_le in Hlo. lia.
Qed.

Lemma sample_strtold_integer a :
  @is_integer sample_utils a = true ->
  exists T, (0 <= T)%Z /\ @strtold sample_utils a = ld_of_Z T.
Proof.
  intros _. exists (digits_value a). split; [|reflexivity].
  unfold digits_value. destruct (parse_digits a 0) as [v|] eqn:Hv; simpl;
    [|lia].
  eapply parse_digits_nonneg; eauto. lia.
Qed.

Section Guard.
Context `{Utils}.

Lemma handle_option_message fs c v o :
  handle_option fs c v = inl o -> o <> Exit_failure msg_overflow.
Proof.
  destruct c as [a|a|a| | |]; simpl.
  - destruct (is_integer a); simpl; [discriminate|]. intros [= <-]. discriminate.
  - destruct (is_positive_number a); simpl;
      [destruct (2 <? atoi a)%Z; [|discriminate]|]; intros [= <-]; discriminate.
  - destruct (read_file fs a) as [n array].
    repeat case_decide; [| |discriminate]; intros [= <-]; discriminate.
  - intros [= <-]. discriminate.
  - intros [= <-]. discriminate.
  - intros [= <-]. discriminate.
Qed.

Lemma parse_options_message fs opts v o :
  parse_options fs opts v = inl o -> o <> Exit_failure msg_overflow.
Proof.
  revert v. induction opts as [|c rest IH]; intros v; [discriminate|].
  cbn [parse_options]. destruct (handle_option fs c v) as [o'|v'] eqn:Hc.
  - intros [= <-]. eapply handle_option_message; eauto.
  - apply IH.
Qed.

Lemma run_not_exit fuel seed v msg : run fuel seed v <> Exit_failure msg.
Proof.
  unfold run. destruct (distance_matrix _ _); [|discriminate].
  destruct (search_loop _ _ _ _ _) as [s| |]; try discriminate.
  unfold report. destruct (min_path s) as [q|]; [|discriminate].
  destruct (mem s !! q); discriminate.
Qed.

End Guard.

(** X17.  If every argument that [is_integer] accepts is a non-negative
    integer that [strtold] converts to the nearest long double, then a
    command line with a [-n] option never ends [main] with the message
    of the guard, "number of simulations must be less than ...": no
    count that passes [is_integer] is rejected for its size. *)
Theorem overflow_message_unreachable `{Utils}
    (strtold_integer : forall a, is_integer a = true ->
       exists T, (0 <= T)%Z /\ strtold a = ld_of_Z T)
    (fuel : nat) (fs : file_system) (opts : list getopt_result)
    (extra : nat) (stack : locals) (seed : rng) :
  is_Some (last_n opts) ->
  main fuel fs opts extra stack seed <> Exit_failure msg_overflow.
Proof.
  intros [a Ha]. unfold main, configure.
  destruct (parse_options fs opts (initial_locals stack)) as [o|v] eqn:Hp.
  { eapply parse_options_message; eauto. }
  case_decide; [discriminate|].
  destruct (parse_options_last fs opts _ v Hp) as (En & _ & _).
  rewrite Ha in En. injection En as _ En.
  pose proof (proj1 (Forall_forall _ _) (parse_options_inr fs opts _ v Hp) _
                (last_n_elem _ _ Ha)) as Hint.
  simpl in Hint. destruct (strtold_integer a Hint) as (T & HT & Hconv).
  rewrite En, Hconv, overflow_guard_integer by assumption.
  destruct (negb (nflag v) || negb (mflag v) || negb (fflag v));
    [discriminate|apply run_not_exit].
Qed.

Lemma overflow_message_unreachable_witness :
  @main sample_utils 4 sample_fs
    [Opt_n "36893488147419103232"; Opt_m "0"; Opt_f "cities"]%string
    0 sample_stack 0
  <> Exit_failure msg_overflow.
Proof.
  apply (@overflow_message_unreachable sample_utils sample_strtold_integer).
  simpl. eauto.
Defined.

(** ** The heap operations of a trial *)

(** X18.  A trial is undefined only where [create_path] or
    [measure_path] is: once the tour is sampled and measured, the copy
    of the incumbent and [free (path)] act on a live block and never
    fail. *)
Theorem trial_defined_iff_sample `{Utils} (D : matrix) (n : nat)
    (s : search rng) :
  is_Some (trial D n s) <-> is_Some (sample D n s).
Proof.
  split.
  - intros [s' Hs'].
    destruct (trial_sample D n s s' Hs') as (? & tour & ? & len & _ & _ & Hs & _).
    rewrite Hs. eauto.
  - intros [[tour len] Hs]. unfold sample in Hs. unfold trial.
    destruct (create_path n (mem s) (rand s)) as [[[path h1] r1]|] eqn:Hcp;
      [|discriminate].
    destruct (create_path_inv _ _ _ _ _ _ Hcp) as (tour' & -> & -> & Hfree).
    simpl in *. rewrite lookup_insert_eq in *. simpl in *.
    destruct (measure_path D n tour') as [len'|]; [|discriminate]. simpl.
    destruct (flt len' (min_len s)); simpl.
    + unfold array_copy, free, malloc_init.
      rewrite lookup_insert_eq. simpl.
      rewrite lookup_insert_ne, lookup_insert_eq; [eauto|].
      intros E.
      pose proof (fresh_not_live (<[fresh (dom (mem s)) := tour']> (mem s)))
        as Hn.
      rewrite E, lookup_insert_eq in Hn. discriminate.
    + unfold free. rewrite lookup_insert_eq. eauto.
Qed.

(** ** Coordinates that are not real numbers *)





(** ** Trial counts that the counter cannot reach *)

Lemma ld_lt_large c T :
  (0 <= c <= 2 ^ 64)%Z -> (2 ^ 64 + 2 <= T)%Z ->
  ldlt (ld_of_Z c) (ld_of_Z T) = true.
Proof.
  intros Hc HT. destruct T as [|p|p]; try lia.
  assert (Hd : (65 <= Z.pos (digits2_pos p))%Z).
  { destruct (Z.lt_ge_cases (Z.pos (digits2_pos p)) 65) as [Hs|]; [|lia].
    pose proof (digits2_bounds p) as [_ Hp].
    assert (2 ^ Z.pos (digits2_pos p) <= 2 ^ 64)%Z
      by (apply Z.pow_le_mono_r; lia).
    lia. }
  unfold ld_of_Z at 2. unfold binary_normalize, binary_round, shl_align.
  rewrite Z.add_0_r, fexp_ld by lia.
  assert (Hr : ldlt (ld_of_Z c)
                 (binary_round_aux 64 16384 false (Z.pos p) 0 loc_Exact) = true).
  { apply (binary_round_aux_ld (fun R => ldlt (ld_of_Z c) R = true));
      try lia.
    - apply counter_below; [apply ld_counter_value; lia|left; reflexivity].
    - intros m' e' Hm' He' Hcase.
      destruct (Z.le_gt_cases 2 e') as [Hbig|Hsmall].
      { apply counter_below; [apply ld_counter_value; lia|].
        right. exists m', e'. auto. }
      assert (He1 : e' = 1%Z) by lia. subst e'.
      destruct Hcase as [[Hdp [Hlo _]]|]; [|lia].
      replace (Z.pos (digits2_pos p) - 64)%Z with 1%Z in Hlo by lia.
      assert (Hm1 : (2 ^ 63 + 1 <= Z.pos m')%Z).
      { etransitivity; [|exact Hlo]. clear -HT. change (2 ^ 1)%Z with 2%Z.
        apply Z.div_le_lower_bound; lia. }
      clear Hlo.
      destruct (Z.eq_dec c (2 ^ 64)%Z) as [->|Hne].
      + rewrite ld_two_64. unfold ldlt, SFltb, SFcompare.
        rewrite Z.compare_refl.
        change (Pos.compare_cont Eq ?x ?y) with (Pos.compare x y).
        destruct (Pos.compare_spec 9223372036854775808 m') as [E|E|E];
          [exfalso|reflexivity|exfalso].
        * assert (E' : Z.pos m' = 9223372036854775808%Z) by (rewrite <- E; reflexivity).
          clear -E' Hm1. lia.
        * assert (E' : (Z.pos m' < 9223372036854775808)%Z) by exact E.
          clear -E' Hm1. lia.
      + destruct c as [|pc|pc]; try lia; [reflexivity|].
        rewrite ld_of_pos by (apply digits2_below; lia).
        pose proof (digits2_below pc ltac:(lia)).
        unfold ldlt, SFltb, SFcompare.
        destruct (Z.compare_spec (Z.pos (digits2_pos pc) - 64) 1);
          try reflexivity; lia. }
  destruct (Z.pos (digits2_pos p) - 64 - 0)%Z as [|k|k] eqn:Hk; try lia;
    exact Hr.
Qed.

Section Endless.
Context `{Utils}.
Hypothesis randperm_ok : randperm_spec.

Lemma search_loop_endless fuel D n T s c :
  1 <= n -> full_table n D -> (2 ^ 64 + 2 <= T)%Z ->
  i s = ld_of_Z c -> (0 <= c <= 2 ^ 64)%Z ->
  search_loop fuel D n (ld_of_Z T) s = OutOfFuel.
Proof.
  intros Hn Hfull HT. revert s c.
  induction fuel as [|fuel IH]; intros s c Hi Hc; [reflexivity|].
  cbn [search_loop].
  rewrite Hi, ld_lt_large by lia.
  destruct (trial_defined randperm_ok D n s Hn Hfull) as [s1 Ht]. rewrite Ht.
  destruct (Z.eq_dec c (2 ^ 64)%Z) as [->|Hne].
  - apply (IH s1 (2 ^ 64)%Z); [|lia].
    rewrite (trial_counter _ _ _ _ Ht), Hi. apply ld_stall.
  - apply (IH s1 (c + 1)%Z); [|lia].
    rewrite (trial_counter _ _ _ _ Ht), Hi. apply ld_succ. lia.
Qed.

(** X20.  For every integer trial count from [2^64 + 2] on that passes
    the checks of [main], the loop never ends: the counter [i] stops
    growing at [2^64], which stays below [num_iter], so [main] never
    reaches its report however many times the loop condition is
    tested. *)
Theorem large_counts_never_end (fs : file_system) (opts : list getopt_result)
    (extra : nat) (stack : locals) (seed : rng) (v : locals) (T : Z) :
  configure fs opts extra stack = inr v ->
  num_iter v = ld_of_Z T -> (2 ^ 64 + 2 <= T)%Z ->
  forall fuel, main fuel fs opts extra stack seed = Out_of_fuel.
Proof.
  intros Hc Hni HT fuel. unfold main. rewrite Hc. unfold run.
  destruct (configure_checked _ _ _ _ _ Hc) as (_ & _ & _ & _ & Hn & Hlen).
  rewrite <- Hlen.
  destruct (distance_matrix_written (coord v)) as (D & HD & _).
  rewrite HD, Hni.
  rewrite (search_loop_endless fuel D (length (coord v)) T (search_init seed)
             0%Z);
    try reflexivity; try lia; auto using distance_matrix_full.
Qed.

End Endless.

Lemma large_counts_never_end_witness :
  @main sample_utils 1000 sample_fs
    [Opt_n "18446744073709551618"; Opt_m "0"; Opt_f "cities"]%string
    0 sample_stack 0 = Out_of_fuel.
Proof.
  destruct (@configure sample_utils sample_fs
              [Opt_n "18446744073709551618"; Opt_m "0"; Opt_f "cities"]%string
              0 sample_stack) as [o|v] eqn:Hc; [vm_compute in Hc; discriminate|].
  assert (Hni : num_iter v = ld_of_Z (2 ^ 64 + 2))
    by (vm_compute in Hc; injection Hc as <-; reflexivity).
  apply (@large_counts_never_end sample_utils sample_randperm_spec _ _ _ _ 0
           v (2 ^ 64 + 2)%Z Hc Hni ltac:(lia) 1000).
Defined.
